(** * piper: running commands and two-stage pipes through one Executor contract

    A shallow embedding of the Go package [piper] (harness, pipe orchestrator,
    error aggregator) and of its [local] and [ssh] launchers.

    Conventions of the embedding
    - a Go [error] is [option goerror]; [None] is [nil];
    - a Go string is a [string] (a sequence of bytes);
    - an interface value ([Launcher], [Executor]) is a record of its methods;
      what lies behind the interface (the spawned process, the session) is
      given by the results its methods return;
    - calls made on a handle are recorded in a trace of events;
    - the order in which concurrent tasks deliver their completion signals is
      chosen by a schedule, an explicit argument of the functions that
      receive from channels. *)

From Stdlib Require Import String Ascii List Bool Arith Lia Permutation.
Import ListNotations.
Open Scope string_scope.
Set Warnings "-register-all".

(** ** Errors *)

(** A non-nil error: the name of its dynamic type (what [reflect.TypeOf]
    prints) and the text its [Error] method returns. *)
Record goerror := GoError { etype : string; emsg : string }.

Definition error := option goerror.

(** The non-nil errors of a list, in order. *)
Fixpoint nonnil (errs : list error) : list goerror :=
  match errs with
  | [] => []
  | Some e :: rest => e :: nonnil rest
  | None :: rest => nonnil rest
  end.

(** [s[n:]] of Go, for [n <= len(s)]. *)
Fixpoint string_from (n : nat) (s : string) : string :=
  match n, s with
  | 0, _ => s
  | S n', String _ s' => string_from n' s'
  | S _, EmptyString => EmptyString
  end.

(** ** The fragment of Go's [fmt] the package relies on *)
Module fmt.

(** Operands of a formatting call, as far as the package passes them: the
    nil interface, strings, errors, and a [[]interface{}] of operands. *)
Inductive value :=
| VNil
| VStr (s : string)
| VErr (e : goerror)
| VList (l : list value).

Definition of_error (e : error) : value :=
  match e with
  | Some e' => VErr e'
  | None => VNil
  end.

(** [reflect.TypeOf(arg).String()] for a non-nil operand. *)
Definition typeString (v : value) : string :=
  match v with
  | VNil => "<nil>"
  | VStr _ => "string"
  | VErr e => etype e
  | VList _ => "[]interface {}"
  end.

(** [printValue] under the verbs [v] and [s]: strings print as they are,
    errors print their message, a nil element prints as the nil marker, a
    slice prints its elements between brackets, separated by one space. *)
Fixpoint printValue (v : value) : string :=
  match v with
  | VNil => "<nil>"
  | VStr s => s
  | VErr e => emsg e
  | VList l => "[" ++ String.concat " " (map printValue l) ++ "]"
  end.

Definition is_verb (c : ascii) : bool :=
  (Ascii.eqb c "v" || Ascii.eqb c "s")%bool.

(** [printArg]: a nil operand is fine under [v] and a bad operand under
    any other verb. *)
Definition printArg (verb : ascii) (v : value) : string :=
  match v with
  | VNil => if Ascii.eqb verb "v" then "<nil>"
            else "%!" ++ String verb "(<nil>)"
  | _ => printValue v
  end.

(** The report on operands left over once the format is exhausted. *)
Definition extra (a : list value) : string :=
  match a with
  | [] => ""
  | _ => "%!(EXTRA "
         ++ String.concat ", "
              (map (fun x => match x with
                             | VNil => "<nil>"
                             | _ => typeString x ++ "=" ++ printArg "v" x
                             end) a)
         ++ ")"
  end.

(** [doPrintf] for formats whose verbs are [%v], [%s] and [%%] (no flags,
    widths or argument indexes): see [modelled]. Any other character after
    a percent sign is outside the fragment and is read here as [%v]. *)
Fixpoint doPrintf (format : string) (a : list value) : string :=
  match format with
  | EmptyString => extra a
  | String c rest =>
      if Ascii.eqb c "%" then
        match rest with
        | EmptyString => "%!(NOVERB)" ++ extra a
        | String verb rest' =>
            if Ascii.eqb verb "%" then String "%" (doPrintf rest' a)
            else
              match a with
              | [] => "%!" ++ String verb "(MISSING)" ++ doPrintf rest' []
              | x :: a' =>
                  printArg (if is_verb verb then verb else "v"%char) x
                  ++ doPrintf rest' a'
              end
        end
      else String c (doPrintf rest a)
  end.

(** The formats on which [doPrintf] is Go's [doPrintf]. *)
Fixpoint modelled (format : string) : bool :=
  match format with
  | EmptyString => true
  | String c rest =>
      if Ascii.eqb c "%" then
        match rest with
        | EmptyString => true
        | String verb rest' =>
            (Ascii.eqb verb "%" || is_verb verb) && modelled rest'
        end
      else modelled rest
  end.

Definition Sprintf (format : string) (a : list value) : string :=
  doPrintf format a.

(** [fmt.Errorf] without the [%w] verb returns an [*errors.errorString]; it
    never returns nil, hence the type. *)
Definition Errorf (format : string) (a : list value) : goerror :=
  GoError "*errors.errorString" (Sprintf format a).

End fmt.

(** ** Package piper *)
Module piper.

Import fmt.

(** *** The Launcher and Executor contracts *)

(** A Go result pair [(T, error)] in which exactly one side is set. *)
Inductive result (A : Type) :=
| Ok (a : A)
| Err (e : goerror).
Arguments Ok {A} a.
Arguments Err {A} e.

(** The three byte-stream endpoints of a command. *)
Inductive endpoint := Stdin | Stdout | Stderr.

(** Calls made on a launcher or on an executor handle, and [Close] calls on
    the endpoints a handle returned. *)
Inductive event :=
| EvLaunch
| EvStdoutPipe
| EvStderrPipe
| EvStdinPipe
| EvClose (ep : endpoint)
| EvStart
| EvWait
| EvKill.

Module Executor.
(** An [Executor] manages a child process. Every method is called at most
    once on a handle by the functions of this package, so a method is given
    by the error of that call ([None]: the call succeeded; for the three
    [...Pipe] methods: the pipe was returned). [Errorf] returns an error as
    [fmt.Errorf] would, so never nil. The remaining fields describe the
    process behind the handle: what it writes to its outputs when its
    standard input delivers the given bytes, the error with which reading an
    output ends ([None]: end of file), the error with which writing to
    its standard input fails ([None]: writes succeed) and, when they fail,
    how many bytes the process takes from its input before they do; and
    whether the process ends although its output is not read to the end
    (what is left fits the buffer of its pipe, or the process gives up). A
    process whose output is abandoned and that does not end stays blocked in
    a write: its streams are never closed. *)
Record t := {
  Command : string;
  Errorf : string -> list value -> goerror;
  Run : error;
  Start : error;
  StderrPipe : error;
  StdinPipe : error;
  StdoutPipe : error;
  Wait : error;
  Kill : error;
  proc_stdout : string -> string;
  proc_stderr : string -> string;
  stdout_rerr : error;
  stderr_rerr : error;
  stdin_werr : error;
  stdin_taken : nat;
  ends_unread : bool
}.
End Executor.

Module Launcher.
(** A [Launcher] knows how to create an [Executor]. *)
Record t := {
  Launch : string -> result Executor.t;
  String : string;
  Errorf : string -> list value -> goerror;
  Close : error
}.
End Launcher.

(** [Launchable]: a launcher along with a specific cmd to launch. *)
Record Launchable := {
  Launcher_ : Launcher.t;
  Cmd : string
}.

Definition LaunchCmd (l : Launchable) : result Executor.t :=
  Launcher.Launch (Launcher_ l) (Cmd l).

(** *** Streams, tasks and channels *)

(** A readable endpoint: the bytes it yields and the error that ends it. *)
Record reader := { rdata : string; rerr : error }.

(** [io.Copy] into a [bytes.Buffer]: the buffer receives every byte read and
    the error is the read error. *)
Definition copy_to_buffer (rc : reader) : string * error :=
  (rdata rc, rerr rc).

(** A writable endpoint: the error with which writing to it fails
    ([None]: writes succeed) and the number of bytes it takes before they
    fail. *)
Record writer := { werr : error; taken : nat }.

(** [s[:n]] of Go, the whole of [s] when it is shorter. *)
Fixpoint string_upto (n : nat) (s : string) : string :=
  match n, s with
  | S n', String c s' => String c (string_upto n' s')
  | _, _ => EmptyString
  end.

(** Whether a copy into [w] is cut short by a write error: [w] fails, and
    before it has taken all that the reader yields. *)
Definition cut_short (w : writer) (rc : reader) : bool :=
  match werr w with
  | Some _ => (taken w <? String.length (rdata rc))%nat
  | None => false
  end.

(** [io.Copy] into a writer: every byte read is written and the error is
    the read error, unless the copy is cut short by a write error; then the
    bytes written are those the writer took and the error is the write
    error. Nothing is written, and no write fails, when the reader is
    empty. Returns the bytes delivered and the error of the copy. *)
Definition copy_to_writer (w : writer) (rc : reader) : string * error :=
  if cut_short w rc
  then (string_upto (taken w) (rdata rc), werr w)
  else (rdata rc, rerr rc).

(** The channels of a pipe: the local [errs] of [readandwrite],
    [src.errchan] and [snk.errchan]. *)
Inductive chan := Errs | SrcErrchan | SnkErrchan.

(** The concurrent tasks: a drain of an output endpoint, the feed of the
    harness's input, the connecting copy of a pipe. *)
Inductive task := Drain (ep : endpoint) | Feed | Copy.

(** A task that sends its completion value on a channel and is not yet
    received. *)
Record sender := { from : task; carries : error }.

Fixpoint remove_nth {A : Type} (k : nat) (l : list A) : list A :=
  match k, l with
  | _, [] => []
  | 0, _ :: l' => l'
  | S k', a :: l' => a :: remove_nth k' l'
  end.

(** A receive: one of the pending senders gets through, chosen by [k]; with
    no sender the receiver blocks forever ([None]). *)
Definition pick {A : Type} (k : nat) (l : list A) : option (A * list A) :=
  match nth_error l (k mod length l) with
  | Some a => Some (a, remove_nth (k mod length l) l)
  | None => None
  end.

(** *** The single-command harness *)

Module harness.

(** [stdin] points to the input to feed, if any; [stdout] and [stderr] say
    whether a destination was given for the captured output. The channel
    [errs] of the Go struct is not used by [run], which has its own. *)
Record t := {
  exe : Executor.t;
  stdin : option string;
  stdout : bool;
  stderr : bool
}.

(** The locals of [run], the calls [run] has made so far, what the
    destinations [*h.stdout] and [*h.stderr] hold, and the calls that the
    feed task makes on its own once its completion value has been received:
    they are in no order with the calls that [run] makes from then on. *)
Record state := {
  trace : list event;
  errchan : list sender;
  errs_len : nat;
  errs : list error;
  pstdout : bool;
  pstderr : bool;
  out : string;
  errout : string;
  feed_calls : list event
}.

Definition init : state :=
  {| trace := []; errchan := []; errs_len := 0; errs := [];
     pstdout := false; pstderr := false; out := ""; errout := "";
     feed_calls := [] |}.

(** One step of the body of a Go function: it goes on with a value, returns
    from the function, or blocks forever on a channel. *)
Inductive step (R A : Type) :=
| Next (a : A)
| Return (r : R)
| Blocked.
Arguments Next {R A} a.
Arguments Return {R A} r.
Arguments Blocked {R A}.

Definition M (R A : Type) : Type := state -> state * step R A.

Definition ret {R A : Type} (a : A) : M R A := fun s => (s, Next a).

Definition bind {R A B : Type} (m : M R A) (k : A -> M R B) : M R B :=
  fun s =>
    match m s with
    | (s', Next a) => k a s'
    | (s', Return r) => (s', Return r)
    | (s', Blocked) => (s', Blocked)
    end.

Definition return_ {R A : Type} (r : R) : M R A := fun s => (s, Return r).

Notation "x <- m ;; k" := (bind m (fun x => k))
  (at level 61, m at next level, right associativity).
Notation "m ;;; k" := (bind m (fun _ => k))
  (at level 61, right associativity).

Definition when {R : Type} (b : bool) (m : M R unit) : M R unit :=
  if b then m else ret tt.

Definition update {R : Type} (f : state -> state) : M R unit :=
  fun s => (f s, Next tt).

(** A call on the handle, recorded in the trace; [r] is what it returns. *)
Definition call {R A : Type} (ev : event) (r : A) : M R A :=
  fun s =>
    ({| trace := trace s ++ [ev]; errchan := errchan s;
        errs_len := errs_len s; errs := errs s; pstdout := pstdout s;
        pstderr := pstderr s; out := out s; errout := errout s;
        feed_calls := feed_calls s |}, Next r).

(** [go func() { ... errchan <- err }()] *)
Definition go {R : Type} (t : task) (err : error) : M R unit :=
  update (fun s =>
    {| trace := trace s;
       errchan := errchan s ++ [{| from := t; carries := err |}];
       errs_len := errs_len s; errs := errs s; pstdout := pstdout s;
       pstderr := pstderr s; out := out s; errout := errout s;
        feed_calls := feed_calls s |}).

(** [errs = errs[:len(errs)+1]] *)
Definition grow_errs {R : Type} : M R unit :=
  update (fun s =>
    {| trace := trace s; errchan := errchan s; errs_len := S (errs_len s);
       errs := errs s; pstdout := pstdout s; pstderr := pstderr s;
       out := out s; errout := errout s;
        feed_calls := feed_calls s |}).

Definition set_pstdout {R : Type} : M R unit :=
  update (fun s =>
    {| trace := trace s; errchan := errchan s; errs_len := errs_len s;
       errs := errs s; pstdout := true; pstderr := pstderr s;
       out := out s; errout := errout s;
        feed_calls := feed_calls s |}).

Definition set_pstderr {R : Type} : M R unit :=
  update (fun s =>
    {| trace := trace s; errchan := errchan s; errs_len := errs_len s;
       errs := errs s; pstdout := pstdout s; pstderr := true;
       out := out s; errout := errout s;
        feed_calls := feed_calls s |}).

(** The bytes the process reads from its standard input: what the feed task
    delivers, or nothing when no input was requested. *)
Definition fed (h : t) : string * error :=
  match stdin h with
  | Some input =>
      copy_to_writer {| werr := Executor.stdin_werr (exe h);
                        taken := Executor.stdin_taken (exe h) |}
                     {| rdata := input; rerr := None |}
  | None => (EmptyString, None)
  end.

(** What the receipt of a task's completion value tells: a drain
    ([copyCloseStr]) has stored the bytes in its destination; the feed
    task, whose send is over, goes on to close the input endpoint on its
    own, at any time from then on, be it before or after the Wait of
    [run]. *)
Definition completed (h : t) (m : sender) (s : state) : state :=
  match from m with
  | Drain Stdout =>
      {| trace := trace s; errchan := errchan s; errs_len := errs_len s;
         errs := errs s; pstdout := pstdout s; pstderr := pstderr s;
         out := Executor.proc_stdout (exe h) (fst (fed h));
         errout := errout s;
        feed_calls := feed_calls s |}
  | Drain Stderr =>
      {| trace := trace s; errchan := errchan s; errs_len := errs_len s;
         errs := errs s; pstdout := pstdout s; pstderr := pstderr s;
         out := out s;
         errout := Executor.proc_stderr (exe h) (fst (fed h));
         feed_calls := feed_calls s |}
  | Feed =>
      {| trace := trace s; errchan := errchan s;
         errs_len := errs_len s; errs := errs s; pstdout := pstdout s;
         pstderr := pstderr s; out := out s; errout := errout s;
         feed_calls := feed_calls s ++ [EvClose Stdin] |}
  | _ => s
  end.

(** [errs[i] = <-errchan] *)
Definition receive {R : Type} (h : t) (k : nat) : M R unit :=
  fun s =>
    match pick k (errchan s) with
    | None => (s, Blocked)
    | Some (m, rest) =>
        let s' := completed h m s in
        ({| trace := trace s'; errchan := rest; errs_len := errs_len s';
            errs := errs s' ++ [carries m]; pstdout := pstdout s';
            pstderr := pstderr s'; out := out s'; errout := errout s';
            feed_calls := feed_calls s' |},
         Next tt)
    end.

(** [for i := range errs { errs[i] = <-errchan }] *)
Fixpoint collect {R : Type} (h : t) (n : nat) (sched : list nat) : M R unit :=
  match n with
  | 0 => ret tt
  | S n' => receive h (hd 0 sched) ;;; collect h n' (tl sched)
  end.

(** [for _, e := range errs { if e != nil { err = e; break } }] *)
Fixpoint first_err (errs : list error) (err : error) : error :=
  match errs with
  | [] => err
  | Some e :: _ => Some e
  | None :: rest => first_err rest err
  end.

(** [harness.run]. [sched] chooses, at each receive from [errchan], which of
    the tasks that have not yet delivered gets through. *)
Definition run (h : t) (sched : list nat) : M error error :=
  let x := exe h in
  when (stdout h) (
    err <- call EvStdoutPipe (Executor.StdoutPipe x) ;;
    match err with
    | Some e =>
        return_ (Some (Executor.Errorf x "error opening stdout pipe: %v" [VErr e]))
    | None =>
        set_pstdout ;;; grow_errs ;;;
        go (Drain Stdout) (Executor.stdout_rerr x)
    end) ;;;
  when (stderr h) (
    err <- call EvStderrPipe (Executor.StderrPipe x) ;;
    match err with
    | Some e =>
        ps <- (fun s => (s, Next (pstdout s))) ;;
        when ps (call (EvClose Stdout) tt) ;;;
        return_ (Some (Executor.Errorf x "error opening stderr pipe: %v" [VErr e]))
    | None =>
        set_pstderr ;;; grow_errs ;;;
        go (Drain Stderr) (Executor.stderr_rerr x)
    end) ;;;
  when (match stdin h with Some _ => true | None => false end) (
    err <- call EvStdinPipe (Executor.StdinPipe x) ;;
    match err with
    | Some e =>
        ps <- (fun s => (s, Next (pstdout s))) ;;
        when ps (call (EvClose Stdout) tt) ;;;
        pe <- (fun s => (s, Next (pstderr s))) ;;
        when pe (call (EvClose Stderr) tt) ;;;
        return_ (Some (Executor.Errorf x "error opening stdin pipe: %v" [VErr e]))
    | None =>
        go Feed (snd (fed h)) ;;; grow_errs
    end) ;;;
  err <- call EvStart (Executor.Start x) ;;
  match err with
  | Some e => return_ (Some (Executor.Errorf x "error starting: %v" [VErr e]))
  | None =>
      n <- (fun s => (s, Next (errs_len s))) ;;
      collect h n sched ;;;
      err <- call EvWait (Executor.Wait x) ;;
      match err with
      | Some e =>
          ret (Some (Executor.Errorf x "completed with error: %v" [VErr e]))
      | None =>
          es <- (fun s => (s, Next (errs s))) ;;
          ret (first_err es None)
      end
  end.

(** [run] as a function from the harness to its outcome: the final state and
    the error returned, or [None] when it blocks forever. *)
Definition outcome (h : t) (sched : list nat) : option (state * error) :=
  match run h sched init with
  | (s, Next e) => Some (s, e)
  | (s, Return e) => Some (s, e)
  | (_, Blocked) => None
  end.

End harness.

(** *** The error aggregator *)

(** [joinerrs]: the loop that builds [errstr]. *)
Fixpoint joinerrs_loop (sep : string) (errs : list error) (errstr : string)
  : string :=
  match errs with
  | [] => errstr
  | e :: rest =>
      joinerrs_loop sep rest
        match e with
        | Some e' => errstr ++ Sprintf "%s%v" [VStr sep; VErr e']
        | None => errstr
        end
  end.

(** [joinerrs] returns nil if all errs are nil, otherwise a sep-separated
    concatenation of all non-nil errs. *)
Definition joinerrs (sep : string) (errs : list error) : error :=
  let errstr := joinerrs_loop sep errs "" in
  if (0 <? String.length errstr)%nat
  then Some (fmt.Errorf "%v" [VStr (string_from (String.length sep) errstr)])
  else None.

(** *** The pipe orchestrator *)

(** The two sides of a pipe. *)
Inductive role := Src | Snk.

Module source.
(** [source] is the writing side of a pipe: [stdout] emits what [exe]
    writes to its stdout, [stderr] is what the drain task stores in the
    buffer, [errchan] holds the task that writes to it once [exe]'s stderr
    is closed. A source has no input endpoint: its process reads nothing. *)
Record t := {
  exe : Executor.t;
  stdout : reader;
  stderr : string;
  errchan : list sender
}.
End source.

Module sink.
(** [sink] is the reading side of a pipe: [stdin] is fed into [exe]'s
    stdin, [stdout] and [stderr] are what the drain tasks store in the
    buffers when [exe] is fed the given bytes, [errchan] holds the two
    drain tasks. *)
Record t := {
  exe : Executor.t;
  stdin : writer;
  stdout : string -> string;
  stderr : string -> string;
  errchan : list sender
}.
End sink.

(** [PipeResult] summarizes the result of a pipe. *)
Record PipeResult := {
  SrcStderr : string;
  SnkStderr : string;
  SnkStdout : string;
  Err_ : error
}.

(** [pipesout] opens the stdout and stderr pipes. *)
Definition pipesout (exe : Executor.t) : list event * result unit :=
  match Executor.StdoutPipe exe with
  | Some err =>
      ([EvStdoutPipe],
       Err (Executor.Errorf exe "error opening stdout pipe: %v" [VErr err]))
  | None =>
      match Executor.StderrPipe exe with
      | Some err =>
          ([EvStdoutPipe; EvStderrPipe; EvClose Stdout],
           Err (Executor.Errorf exe "error opening stderr pipe: %v" [VErr err]))
      | None => ([EvStdoutPipe; EvStderrPipe], Ok tt)
      end
  end.

(** [send] creates and returns a source, whose exe has been started. *)
Definition send (exe : Executor.t) : list event * result source.t :=
  match pipesout exe with
  | (tr, Err err) => (tr, Err err)
  | (tr, Ok _) =>
      match Executor.Start exe with
      | Some err =>
          ((tr ++ [EvStart])%list,
           Err (Executor.Errorf exe "error starting pipe source: %v" [VErr err]))
      | None =>
          let pstdout := {| rdata := Executor.proc_stdout exe "";
                            rerr := Executor.stdout_rerr exe |} in
          let pstderr := {| rdata := Executor.proc_stderr exe "";
                            rerr := Executor.stderr_rerr exe |} in
          ((tr ++ [EvStart])%list,
           Ok {| source.exe := exe;
                 source.stdout := pstdout;
                 source.stderr := fst (copy_to_buffer pstderr);
                 source.errchan :=
                   [{| from := Drain Stderr;
                       carries := snd (copy_to_buffer pstderr) |}] |})
      end
  end.

(** [recv] creates and returns a sink, whose exe has been started. *)
Definition recv (exe : Executor.t) : list event * result sink.t :=
  match pipesout exe with
  | (tr, Err err) => (tr, Err err)
  | (tr, Ok _) =>
      match Executor.StdinPipe exe with
      | Some err =>
          ((tr ++ [EvStdinPipe])%list,
           Err (Executor.Errorf exe "error creating stdin pipe: %v" [VErr err]))
      | None =>
          match Executor.Start exe with
          | Some err =>
              ((tr ++ [EvStdinPipe; EvStart])%list,
               Err (Executor.Errorf exe "error starting pipe sink: %v" [VErr err]))
          | None =>
              let pstdout input := {| rdata := Executor.proc_stdout exe input;
                                      rerr := Executor.stdout_rerr exe |} in
              let pstderr input := {| rdata := Executor.proc_stderr exe input;
                                      rerr := Executor.stderr_rerr exe |} in
              ((tr ++ [EvStdinPipe; EvStart])%list,
               Ok {| sink.exe := exe;
                     sink.stdin := {| werr := Executor.stdin_werr exe;
                                      taken := Executor.stdin_taken exe |};
                     sink.stdout := fun input => fst (copy_to_buffer (pstdout input));
                     sink.stderr := fun input => fst (copy_to_buffer (pstderr input));
                     sink.errchan :=
                       [{| from := Drain Stderr;
                           carries := Executor.stderr_rerr exe |};
                        {| from := Drain Stdout;
                           carries := Executor.stdout_rerr exe |}] |})
          end
      end
  end.

Module pipe.

Record t := { src : source.t; snk : sink.t }.

(** The locals of [readandwrite]: [err] and [dones], the tasks that have
    not yet delivered on each channel, the completion values received so
    far with their channel, and the calls made. *)
Record rw_state := {
  err : error;
  dones : nat;
  pending : list (chan * sender);
  received : list (chan * sender);
  rw_trace : list (role * event)
}.

(** The connecting copy [io.Copy(p.snk.stdin, p.src.stdout)]: the bytes
    delivered to the sink and the error of the copy. *)
Definition connect (p : t) : string * error :=
  copy_to_writer (sink.stdin (snk p)) (source.stdout (src p)).

(** Whether the source stays blocked: the copy was cut short by a write
    error, nobody reads the source's output any more, and the source does
    not end with its output unread. Its error output is then never closed. *)
Definition stalled (p : t) : bool :=
  cut_short (sink.stdin (snk p)) (source.stdout (src p))
  && negb (Executor.ends_unread (source.exe (src p))).

(** The state on entry to the loop: the copy task has been started; the
    drains were started by [send] and [recv]. [pending] holds the tasks
    that deliver a completion value: the copy, which ends with the source's
    output or with a write error; the sink's drains, which end once the sink
    has seen the end of its input; and the source's drain, unless the source
    stays blocked. *)
Definition rw_init (p : t) : rw_state :=
  {| err := None;
     dones := 0;
     pending :=
       [(Errs, {| from := Copy; carries := snd (connect p) |})]
       ++ (if stalled p then []
           else map (pair SrcErrchan) (source.errchan (src p)))
       ++ map (pair SnkErrchan) (sink.errchan (snk p));
     received := [];
     rw_trace := [] |}.

(** One [select]: a pending sender, chosen by [k], gets through and the
    case of its channel runs. With no sender left the select blocks. *)
Definition select (k : nat) (s : rw_state) : option rw_state :=
  match pick k (pending s) with
  | None => None
  | Some ((Errs, sd) as m, rest) =>
      Some {| err := match carries sd with
                     | Some e => Some (fmt.Errorf "error piping: %v" [VErr e])
                     | None => None
                     end;
              dones := S (dones s);
              pending := rest;
              received := received s ++ [m];
              rw_trace := rw_trace s ++ [(Snk, EvClose Stdin)] |}
  | Some ((SrcErrchan, sd) as m, rest) =>
      Some {| err := match carries sd with
                     | Some srcerr =>
                         Some (fmt.Errorf "source error: %v" [VErr srcerr])
                     | None => err s
                     end;
              dones := S (dones s);
              pending := rest;
              received := received s ++ [m];
              rw_trace := rw_trace s |}
  | Some ((SnkErrchan, sd) as m, rest) =>
      Some {| err := match carries sd with
                     | Some snkerr =>
                         Some (fmt.Errorf "sink error: %v" [VErr snkerr])
                     | None => err s
                     end;
              dones := S (dones s);
              pending := rest;
              received := received s ++ [m];
              rw_trace := rw_trace s |}
  end.

(** [for dones < 4 { select { ... } }] *)
Fixpoint loop (fuel : nat) (sched : list nat) (s : rw_state)
  : option rw_state :=
  if (4 <=? dones s)%nat then Some s
  else
    match fuel with
    | 0 => None
    | S fuel' =>
        match select (hd 0 sched) s with
        | None => None
        | Some s' => loop fuel' (tl sched) s'
        end
    end.

(** [readandwrite] does all the I/O but stops short of the Wait. [None]:
    it never returns, a select finding no task left that delivers. Every
    iteration counts one more done, so four iterations are all the loop can
    make. *)
Definition readandwrite (p : t) (sched : list nat) : option rw_state :=
  loop 4 sched (rw_init p).

Definition endpoint_eqb (a b : endpoint) : bool :=
  match a, b with
  | Stdin, Stdin | Stdout, Stdout | Stderr, Stderr => true
  | _, _ => false
  end.

Definition task_eqb (a b : task) : bool :=
  match a, b with
  | Drain x, Drain y => endpoint_eqb x y
  | Feed, Feed | Copy, Copy => true
  | _, _ => false
  end.

Definition chan_eqb (a b : chan) : bool :=
  match a, b with
  | Errs, Errs | SrcErrchan, SrcErrchan | SnkErrchan, SnkErrchan => true
  | _, _ => false
  end.

(** Whether the completion value of task [t] on channel [c] was received. *)
Definition drained (c : chan) (t : task) (rcv : list (chan * sender)) : bool :=
  existsb (fun m => chan_eqb (fst m) c && task_eqb (from (snd m)) t) rcv.

(** [buf.String()]: a buffer holds all that its drain task stores once the
    task has delivered its completion value. *)
Definition buffer (c : chan) (t : task) (rcv : list (chan * sender))
  (content : string) : string :=
  if drained c t rcv then content else EmptyString.

(** Where one of the two goroutines of [wait] stands: about to call [Wait],
    about to call [Kill] on the source (the sink's goroutine only), about to
    send on [waitchan], or finished. *)
Inductive waiter :=
| ToWait
| ToKill (e : error)
| ToSend (e : error)
| Sent.

Record wait_state := {
  src_waiter : waiter;
  snk_waiter : waiter;
  waitchan : list error;
  wait_trace : list (role * event)
}.

Definition wait_init : wait_state :=
  {| src_waiter := ToWait; snk_waiter := ToWait; waitchan := [];
     wait_trace := [] |}.

(** A move of the goroutine that waits for the source. *)
Definition step_src (p : t) (s : wait_state) : wait_state :=
  match src_waiter s with
  | ToWait =>
      {| src_waiter :=
           ToSend match Executor.Wait (source.exe (src p)) with
                  | Some e =>
                      Some (fmt.Errorf "source exited with error: %v" [VErr e])
                  | None => None
                  end;
         snk_waiter := snk_waiter s;
         waitchan := waitchan s;
         wait_trace := wait_trace s ++ [(Src, EvWait)] |}
  | ToSend e =>
      {| src_waiter := Sent; snk_waiter := snk_waiter s;
         waitchan := waitchan s ++ [e]; wait_trace := wait_trace s |}
  | ToKill _ | Sent => s
  end.

(** A move of the goroutine that waits for the sink. *)
Definition step_snk (p : t) (s : wait_state) : wait_state :=
  match snk_waiter s with
  | ToWait =>
      {| src_waiter := src_waiter s;
         snk_waiter :=
           match Executor.Wait (sink.exe (snk p)) with
           | Some e =>
               ToKill (Some (fmt.Errorf "sink exited with error: %v" [VErr e]))
           | None => ToSend None
           end;
         waitchan := waitchan s;
         wait_trace := wait_trace s ++ [(Snk, EvWait)] |}
  | ToKill e =>
      {| src_waiter := src_waiter s; snk_waiter := ToSend e;
         waitchan := waitchan s;
         wait_trace := wait_trace s ++ [(Src, EvKill)] |}
  | ToSend e =>
      {| src_waiter := src_waiter s; snk_waiter := Sent;
         waitchan := waitchan s ++ [e]; wait_trace := wait_trace s |}
  | Sent => s
  end.

Definition step (p : t) (s : wait_state) (g : role) : wait_state :=
  match g with
  | Src => step_src p s
  | Snk => step_snk p s
  end.

(** The two goroutines interleaved: [order] says which one moves next (a
    move of a finished goroutine does nothing); once [order] is exhausted
    the source's goroutine, then the sink's, run to their end. Every
    [order] is thus a complete run, and every interleaving of the two
    goroutines is the run of some [order]. *)
Definition interleave (p : t) (order : list role) : wait_state :=
  fold_left (step p) (order ++ [Src; Src; Snk; Snk; Snk]) wait_init.

(** [wait]: [joinerrs("; ", <-waitchan, <-waitchan)], the values in the
    order in which they were sent. *)
Definition wait (p : t) (order : list role) : list (role * event) * error :=
  let s := interleave p order in
  (wait_trace s, joinerrs "; " (waitchan s)).

(** [run]: [None] when [readandwrite] never returns. *)
Definition run (p : t) (sched : list nat) (order : list role)
  : option (list (role * event) * PipeResult) :=
  match readandwrite p sched with
  | None => None
  | Some rw =>
      let (wtr, werr) := wait p order in
      let input := fst (connect p) in
      Some ((rw_trace rw ++ wtr)%list,
            {| Err_ := joinerrs "; " [err rw; werr];
               SrcStderr := buffer SrcErrchan (Drain Stderr) (received rw)
                              (source.stderr (src p));
               SnkStderr := buffer SnkErrchan (Drain Stderr) (received rw)
                              (sink.stderr (snk p) input);
               SnkStdout := buffer SnkErrchan (Drain Stdout) (received rw)
                              (sink.stdout (snk p) input) |})
  end.

End pipe.

Definition tag (r : role) (tr : list event) : list (role * event) :=
  map (pair r) tr.

Definition failed (e : goerror) : PipeResult :=
  {| SrcStderr := ""; SnkStderr := ""; SnkStdout := ""; Err_ := Some e |}.

(** [Pipe] invokes two commands and connects the stdout of the source to
    the stdin of the sink. Returns the calls made on the two handles and
    the result; [None] when it never returns. *)
Definition Pipe (srclch snklch : Launchable) (sched : list nat)
  (order : list role) : option (list (role * event) * PipeResult) :=
  match LaunchCmd srclch with
  | Err err =>
      Some ([(Src, EvLaunch)],
            failed (Launcher.Errorf (Launcher_ srclch)
                      "error creating pipe source: %v" [VErr err]))
  | Ok srcexe =>
      match LaunchCmd snklch with
      | Err err =>
          Some ([(Src, EvLaunch); (Snk, EvLaunch)],
                failed (Launcher.Errorf (Launcher_ snklch)
                          "error creating pipe sink: %v" [VErr err]))
      | Ok snkexe =>
          let launched := [(Src, EvLaunch); (Snk, EvLaunch)] in
          match send srcexe with
          | (trsrc, Err err) =>
              Some ((launched ++ tag Src trsrc)%list, failed err)
          | (trsrc, Ok src) =>
              match recv snkexe with
              | (trsnk, Err err) =>
                  let _ := Executor.Kill (source.exe src) in
                  let _ := Executor.Wait (source.exe src) in
                  Some ((launched ++ tag Src trsrc ++ tag Snk trsnk
                         ++ [(Src, EvKill); (Src, EvWait)])%list,
                        failed err)
              | (trsnk, Ok snk) =>
                  match pipe.run {| pipe.src := src; pipe.snk := snk |}
                          sched order with
                  | None => None
                  | Some (tr, pr) =>
                      Some ((launched ++ tag Src trsrc ++ tag Snk trsnk
                             ++ tr)%list, pr)
                  end
              end
          end
      end
  end.

(** *** The public operations on one command *)

(** [newHarness]: a harness over [exe], with no input and no destination. *)
Definition newHarness (exe : Executor.t) : harness.t :=
  {| harness.exe := exe; harness.stdin := None;
     harness.stdout := false; harness.stderr := false |}.

Definition startCmd (lch : Launcher.t) (cmd : string) : result harness.t :=
  match Launcher.Launch lch cmd with
  | Err err =>
      Err (Launcher.Errorf lch "error starting %s: %v" [VStr cmd; VErr err])
  | Ok exe => Ok (newHarness exe)
  end.

(** The calls made by the caller's own goroutine and the values returned
    by one of the four operations below that runs the harness [h]: the
    captured output, the captured error-output and the error. [None]: it never returns. On the paths of
    [run] that return before the tasks have delivered, the destinations are
    taken as not yet written. *)
Definition ran (h : harness.t) (sched : list nat)
  : option (list event * (string * string * error)) :=
  match harness.outcome h sched with
  | None => None
  | Some (s, err) =>
      Some (EvLaunch :: harness.trace s,
            (harness.out s, harness.errout s, err))
  end.

Definition not_started (err : goerror)
  : option (list event * (string * string * error)) :=
  Some ([EvLaunch], (EmptyString, EmptyString, Some err)).

(** [RunCmd] executes cmd using lch, discarding any output. *)
Definition RunCmd (lch : Launcher.t) (cmd : string) (sched : list nat)
  : option (list event * error) :=
  match startCmd lch cmd with
  | Err err => Some ([EvLaunch], Some err)
  | Ok h =>
      match ran h sched with
      | None => None
      | Some (tr, (_, _, err)) => Some (tr, err)
      end
  end.

(** [RunCmdStrIn]: as [RunCmd], writing [stdin] to the command's input. *)
Definition RunCmdStrIn (lch : Launcher.t) (cmd stdin : string)
  (sched : list nat) : option (list event * error) :=
  match startCmd lch cmd with
  | Err err => Some ([EvLaunch], Some err)
  | Ok h =>
      match ran {| harness.exe := harness.exe h;
                   harness.stdin := Some stdin;
                   harness.stdout := harness.stdout h;
                   harness.stderr := harness.stderr h |} sched with
      | None => None
      | Some (tr, (_, _, err)) => Some (tr, err)
      end
  end.

(** [RunCmdCapture] returns the stdout and stderr output the command
    produces. *)
Definition RunCmdCapture (lch : Launcher.t) (cmd : string) (sched : list nat)
  : option (list event * (string * string * error)) :=
  match startCmd lch cmd with
  | Err err => not_started err
  | Ok h =>
      ran {| harness.exe := harness.exe h;
             harness.stdin := harness.stdin h;
             harness.stdout := true;
             harness.stderr := true |} sched
  end.

Definition RunCmdStrInCapture (lch : Launcher.t) (cmd stdin : string)
  (sched : list nat) : option (list event * (string * string * error)) :=
  match startCmd lch cmd with
  | Err err => not_started err
  | Ok h =>
      ran {| harness.exe := harness.exe h;
             harness.stdin := Some stdin;
             harness.stdout := true;
             harness.stderr := true |} sched
  end.

End piper.

(** ** Package local: commands spawned as local processes *)
Module local.

Import fmt piper.

(** [os/exec.Cmd] as far as [piper] uses it: the errors of its methods and
    the behaviour of the process it spawns (see [Executor.t]). *)
Module Cmd.
Record t := {
  Run : error;
  Start : error;
  StderrPipe : error;
  StdinPipe : error;
  StdoutPipe : error;
  Wait : error;
  proc_stdout : string -> string;
  proc_stderr : string -> string;
  stdout_rerr : error;
  stderr_rerr : error;
  stdin_werr : error;
  stdin_taken : nat;
  ends_unread : bool
}.
End Cmd.

(** [Launcher] implements [piper.Launcher] by spawning a local process. *)
Record Launcher : Set := MkLauncher {}.

(** [exe] implements [piper.Executor] by wrapping [os/exec.Cmd]. Its
    [cancel] function, which cancels the context of the command, has no
    result and is left out. *)
Record exe := {
  Cmd_ : Cmd.t;
  command : string
}.

Definition String (l : Launcher) : string := "local".

(** [Launcher.Errorf]: the slice [args] is passed on as one operand. *)
Definition Errorf (l : Launcher) (pat : string) (args : list value)
  : goerror :=
  fmt.Errorf pat [VList args].

Definition Close (l : Launcher) : error := None.

(** [exe.Errorf] *)
Definition exe_Errorf (e : exe) (pat : string) (args : list value)
  : goerror :=
  let pfx := Sprintf "cmd {%s} :" [VStr (command e)] in
  fmt.Errorf "%s: %v" [VStr pfx; VErr (fmt.Errorf pat args)].

Definition exe_Command (e : exe) : string := command e.

(** [exe.Kill]: cancels the context and returns nil. *)
Definition exe_Kill (e : exe) : error := None.

(** [exe] as a [piper.Executor]: the methods above, the others promoted
    from the embedded [*exec.Cmd]. *)
Definition Executor_of (e : exe) : Executor.t :=
  {| Executor.Command := exe_Command e;
     Executor.Errorf := exe_Errorf e;
     Executor.Run := Cmd.Run (Cmd_ e);
     Executor.Start := Cmd.Start (Cmd_ e);
     Executor.StderrPipe := Cmd.StderrPipe (Cmd_ e);
     Executor.StdinPipe := Cmd.StdinPipe (Cmd_ e);
     Executor.StdoutPipe := Cmd.StdoutPipe (Cmd_ e);
     Executor.Wait := Cmd.Wait (Cmd_ e);
     Executor.Kill := exe_Kill e;
     Executor.proc_stdout := Cmd.proc_stdout (Cmd_ e);
     Executor.proc_stderr := Cmd.proc_stderr (Cmd_ e);
     Executor.stdout_rerr := Cmd.stdout_rerr (Cmd_ e);
     Executor.stderr_rerr := Cmd.stderr_rerr (Cmd_ e);
     Executor.stdin_werr := Cmd.stdin_werr (Cmd_ e);
     Executor.stdin_taken := Cmd.stdin_taken (Cmd_ e);
     Executor.ends_unread := Cmd.ends_unread (Cmd_ e) |}.

Section OS.

(** [exec.CommandContext(ctx, name, arg...)]: the command the operating
    system would run; it only builds the [Cmd]. *)
Variable CommandContext : string -> list string -> Cmd.t.

(** [Launcher.Launch] implements the [piper.Launcher] interface by invoking
    sh. *)
Definition Launch (l : Launcher) (cmd : string) : result Executor.t :=
  Ok (Executor_of {| Cmd_ := CommandContext "sh" ["-c"; cmd];
                     command := cmd |}).

(** [Launcher] as a [piper.Launcher]. *)
Definition Launcher_of (l : Launcher) : Launcher.t :=
  {| Launcher.Launch := Launch l;
     Launcher.String := String l;
     Launcher.Errorf := Errorf l;
     Launcher.Close := Close l |}.

End OS.

End local.

(** ** Package ssh: commands run in sessions of an ssh client *)
Module ssh.

Import fmt piper.

(** [ssh.Session] as far as [piper] uses it; [Signal] is the error of
    [Signal(ssh.SIGKILL)]. *)
Module Session.
Record t := {
  Run : error;
  Start : error;
  StderrPipe : error;
  StdinPipe : error;
  StdoutPipe : error;
  Wait : error;
  Signal : error;
  proc_stdout : string -> string;
  proc_stderr : string -> string;
  stdout_rerr : error;
  stderr_rerr : error;
  stdin_werr : error;
  stdin_taken : nat;
  ends_unread : bool
}.
End Session.

(** [ssh.Client]: the user and remote address of its connection, and what
    [NewSession] returns: an error, or a session, given by how it behaves
    for each command it may be started with. *)
Module Client.
Record t := {
  User : string;
  RemoteAddr : string;
  NewSession : result (string -> Session.t);
  Close : error
}.
End Client.

(** [Launcher] implements [piper.Launcher]. *)
Record Launcher := { Client_ : Client.t }.

(** [exe] implements [piper.Executor]. *)
Record exe := {
  Session_ : string -> Session.t;
  launchdesc : string;
  command : string
}.

Definition String (l : Launcher) : string :=
  Sprintf "%s@%s" [VStr (Client.User (Client_ l));
                   VStr (Client.RemoteAddr (Client_ l))].

Definition Close (l : Launcher) : error := Client.Close (Client_ l).

(** [Launcher.Errorf]; [%s] prints a launcher through its [String]. *)
Definition Errorf (l : Launcher) (pat : string) (args : list value)
  : goerror :=
  let pfx := Sprintf "%s: " [VStr (String l)] in
  fmt.Errorf "%s: %v" [VStr pfx; VErr (fmt.Errorf pat args)].

(** [exe.Errorf] *)
Definition exe_Errorf (e : exe) (pat : string) (args : list value)
  : goerror :=
  let pfx := Sprintf "cmd %s{%s} :" [VStr (launchdesc e); VStr (command e)] in
  fmt.Errorf "%s: %v" [VStr pfx; VErr (fmt.Errorf pat args)].

Definition Executor_of (e : exe) : Executor.t :=
  {| Executor.Command := command e;
     Executor.Errorf := exe_Errorf e;
     Executor.Run := Session.Run (Session_ e (command e));
     Executor.Start := Session.Start (Session_ e (command e));
     Executor.StderrPipe := Session.StderrPipe (Session_ e (command e));
     Executor.StdinPipe := Session.StdinPipe (Session_ e (command e));
     Executor.StdoutPipe := Session.StdoutPipe (Session_ e (command e));
     Executor.Wait := Session.Wait (Session_ e (command e));
     Executor.Kill := Session.Signal (Session_ e (command e));
     Executor.proc_stdout := Session.proc_stdout (Session_ e (command e));
     Executor.proc_stderr := Session.proc_stderr (Session_ e (command e));
     Executor.stdout_rerr := Session.stdout_rerr (Session_ e (command e));
     Executor.stderr_rerr := Session.stderr_rerr (Session_ e (command e));
     Executor.stdin_werr := Session.stdin_werr (Session_ e (command e));
     Executor.stdin_taken := Session.stdin_taken (Session_ e (command e));
     Executor.ends_unread := Session.ends_unread (Session_ e (command e)) |}.

(** [Launcher.Launch] implements the [piper.Launcher] interface by creating
    a new ssh session. *)
Definition Launch (l : Launcher) (command : string) : result Executor.t :=
  match Client.NewSession (Client_ l) with
  | Err err => Err err
  | Ok sess =>
      Ok (Executor_of {| launchdesc := String l; Session_ := sess;
                         command := command |})
  end.

Definition Launcher_of (l : Launcher) : Launcher.t :=
  {| Launcher.Launch := Launch l;
     Launcher.String := String l;
     Launcher.Errorf := Errorf l;
     Launcher.Close := Close l |}.

End ssh.

(** * Vocabulary of the properties *)

Import fmt piper.

(** Every non-nil error adds the separator and its message to [errstr]. *)
Fixpoint prefixed (sep : string) (l : list goerror) : string :=
  match l with
  | [] => ""
  | e :: l' => sep ++ emsg e ++ prefixed sep l'
  end.

(** A list of errors with two failures. *)
Definition sample_errs : list error :=
  [Some (GoError "*exec.ExitError" "exit status 1"); None;
   Some (GoError "*errors.errorString" "EOF")].

(** [Interleaving l1 l2 l]: [l] merges [l1] and [l2], keeping the order of
    each. *)
Inductive Interleaving {A : Type} : list A -> list A -> list A -> Prop :=
| il_nil : Interleaving [] [] []
| il_left (a : A) (l1 l2 l : list A) :
    Interleaving l1 l2 l -> Interleaving (a :: l1) l2 (a :: l)
| il_right (a : A) (l1 l2 l : list A) :
    Interleaving l1 l2 l -> Interleaving l1 (a :: l2) (a :: l).

(** The values the two goroutines of [pipe.wait] send on [waitchan]. *)
Definition src_exit (p : pipe.t) : error :=
  match Executor.Wait (source.exe (pipe.src p)) with
  | Some e => Some (fmt.Errorf "source exited with error: %v" [VErr e])
  | None => None
  end.

Definition snk_exit (p : pipe.t) : error :=
  match Executor.Wait (sink.exe (pipe.snk p)) with
  | Some e => Some (fmt.Errorf "sink exited with error: %v" [VErr e])
  | None => None
  end.

(** The calls each goroutine of [pipe.wait] makes, in its own order: the
    source's goroutine waits for the source; the sink's goroutine waits
    for the sink and, when that fails, kills the source. *)
Definition src_calls : list (role * event) := [(Src, EvWait)].

Definition snk_calls (p : pipe.t) : list (role * event) :=
  (Snk, EvWait) ::
  match Executor.Wait (sink.exe (pipe.snk p)) with
  | Some _ => [(Src, EvKill)]
  | None => []
  end.

(** The calls made and the values sent by a goroutine that stands at [w]. *)
Definition src_made (w : pipe.waiter) : list (role * event) :=
  match w with
  | pipe.ToWait => []
  | _ => src_calls
  end.

Definition snk_made (p : pipe.t) (w : pipe.waiter) : list (role * event) :=
  match w with
  | pipe.ToWait => []
  | pipe.ToKill _ => [(Snk, EvWait)]
  | _ => snk_calls p
  end.

Definition sent (e : error) (w : pipe.waiter) : list error :=
  match w with
  | pipe.Sent => [e]
  | _ => []
  end.

(** The value a goroutine holds is the one it got from its [Wait]. *)
Definition src_holds (p : pipe.t) (w : pipe.waiter) : Prop :=
  match w with
  | pipe.ToKill _ => False
  | pipe.ToSend e => e = src_exit p
  | _ => True
  end.

Definition snk_holds (p : pipe.t) (w : pipe.waiter) : Prop :=
  match w with
  | pipe.ToKill e =>
      e = snk_exit p /\ Executor.Wait (sink.exe (pipe.snk p)) <> None
  | pipe.ToSend e => e = snk_exit p
  | _ => True
  end.

(** The invariant of the interleaved run of [pipe.wait]. *)
Definition wait_inv (p : pipe.t) (s : pipe.wait_state) : Prop :=
  src_holds p (pipe.src_waiter s) /\
  snk_holds p (pipe.snk_waiter s) /\
  Interleaving (src_made (pipe.src_waiter s))
               (snk_made p (pipe.snk_waiter s)) (pipe.wait_trace s) /\
  Interleaving (sent (src_exit p) (pipe.src_waiter s))
               (sent (snk_exit p) (pipe.snk_waiter s)) (pipe.waitchan s).

(** The error [readandwrite] holds after the case of one received value
    has run, [err] being the error it held before. *)
Definition next_err (err : error) (m : chan * sender) : error :=
  match fst m, carries (snd m) with
  | Errs, Some e => Some (fmt.Errorf "error piping: %v" [VErr e])
  | Errs, None => None
  | SrcErrchan, Some e => Some (fmt.Errorf "source error: %v" [VErr e])
  | SnkErrchan, Some e => Some (fmt.Errorf "sink error: %v" [VErr e])
  | _, None => err
  end.

(** The calls the case of one received value makes. *)
Definition closes (m : chan * sender) : list (role * event) :=
  match fst m with
  | Errs => [(Snk, EvClose Stdin)]
  | _ => []
  end.

(** The first non-nil error among the values received, described as the
    case of its channel describes it; nil when all are nil. *)
Fixpoint first_seen (rcv : list (chan * sender)) : error :=
  match rcv with
  | [] => None
  | m :: rest =>
      match carries (snd m) with
      | Some _ => next_err None m
      | None => first_seen rest
      end
  end.

(** The source's setup succeeds: its two output endpoints open and it
    starts. *)
Definition source_starts (x : Executor.t) : Prop :=
  Executor.StdoutPipe x = None /\ Executor.StderrPipe x = None /\
  Executor.Start x = None.

(** The sink's setup succeeds: its three endpoints open and it starts. *)
Definition sink_starts (x : Executor.t) : Prop :=
  Executor.StdoutPipe x = None /\ Executor.StderrPipe x = None /\
  Executor.StdinPipe x = None /\ Executor.Start x = None.

(** The source and the sink that [send] and [recv] build. *)
Definition source_of (x : Executor.t) : source.t :=
  {| source.exe := x;
     source.stdout := {| rdata := Executor.proc_stdout x "";
                         rerr := Executor.stdout_rerr x |};
     source.stderr := Executor.proc_stderr x "";
     source.errchan := [{| from := Drain Stderr;
                           carries := Executor.stderr_rerr x |}] |}.

Definition sink_of (x : Executor.t) : sink.t :=
  {| sink.exe := x;
     sink.stdin := {| werr := Executor.stdin_werr x;
                      taken := Executor.stdin_taken x |};
     sink.stdout := fun input => Executor.proc_stdout x input;
     sink.stderr := fun input => Executor.proc_stderr x input;
     sink.errchan := [{| from := Drain Stderr;
                         carries := Executor.stderr_rerr x |};
                      {| from := Drain Stdout;
                         carries := Executor.stdout_rerr x |}] |}.

Definition pipe_of (srcexe snkexe : Executor.t) : pipe.t :=
  {| pipe.src := source_of srcexe; pipe.snk := sink_of snkexe |}.

(** The four tasks of a pipe, each with the channel on which it delivers
    its completion value. *)
Definition four_tasks (p : pipe.t) : list (chan * sender) :=
  [(Errs, {| from := Copy; carries := snd (pipe.connect p) |})]
  ++ map (pair SrcErrchan) (source.errchan (pipe.src p))
  ++ map (pair SnkErrchan) (sink.errchan (pipe.snk p)).

(** The calls of a setup that succeeds. *)
Definition source_setup : list event := [EvStdoutPipe; EvStderrPipe; EvStart].

Definition sink_setup : list event :=
  [EvStdoutPipe; EvStderrPipe; EvStdinPipe; EvStart].

(** All the I/O of a pipe completes without error. *)
Definition clean_io (srcexe snkexe : Executor.t) : Prop :=
  Executor.stdout_rerr srcexe = None /\ Executor.stderr_rerr srcexe = None /\
  Executor.stdin_werr snkexe = None /\
  Executor.stdout_rerr snkexe = None /\ Executor.stderr_rerr snkexe = None.

(** *** A toy operating system for the examples *)

(** A command that opens, starts, reads and writes without error, and
    exits with [exit]. *)
Definition plain (out : string -> string) (exit : error) : local.Cmd.t :=
  {| local.Cmd.Run := exit;
     local.Cmd.Start := None;
     local.Cmd.StderrPipe := None;
     local.Cmd.StdinPipe := None;
     local.Cmd.StdoutPipe := None;
     local.Cmd.Wait := exit;
     local.Cmd.proc_stdout := out;
     local.Cmd.proc_stderr := fun _ => "";
     local.Cmd.stdout_rerr := None;
     local.Cmd.stderr_rerr := None;
     local.Cmd.stdin_werr := None;
     local.Cmd.stdin_taken := 0;
     local.Cmd.ends_unread := true |}.

Definition exit_status_1 : goerror := GoError "*exec.ExitError" "exit status 1".

(** The shell of the toy system knows [echo -n], [cat] and [false]; every
    other command prints nothing and exits zero. *)
Definition toy_sh (cmd : string) : local.Cmd.t :=
  if String.prefix "echo -n " cmd then plain (fun _ => string_from 8 cmd) None
  else if (cmd =? "cat")%string then plain (fun input => input) None
  else if (cmd =? "false")%string then plain (fun _ => "") (Some exit_status_1)
  else plain (fun _ => "") None.

Definition toy_CommandContext (name : string) (args : list string)
  : local.Cmd.t :=
  toy_sh (nth 1 args "").

Definition toy_local : Launcher.t :=
  local.Launcher_of toy_CommandContext local.MkLauncher.

Definition toy (cmd : string) : Launchable :=
  {| Launcher_ := toy_local; Cmd := cmd |}.

(** *** A toy remote host for the examples *)

Definition reset_by_peer : goerror :=
  GoError "*net.OpError" "read tcp 127.0.0.1:22: connection reset by peer".

Definition broken_pipe : goerror :=
  GoError "*errors.errorString" "io: read/write on closed pipe".

(** A session that opens and starts; reading its outputs ends with the
    given errors and it exits with [exit]. *)
Definition session (out : string -> string) (stdout_rerr stderr_rerr : error)
  (exit : error) : ssh.Session.t :=
  {| ssh.Session.Run := exit;
     ssh.Session.Start := None;
     ssh.Session.StderrPipe := None;
     ssh.Session.StdinPipe := None;
     ssh.Session.StdoutPipe := None;
     ssh.Session.Wait := exit;
     ssh.Session.Signal := None;
     ssh.Session.proc_stdout := out;
     ssh.Session.proc_stderr := fun _ => "";
     ssh.Session.stdout_rerr := stdout_rerr;
     ssh.Session.stderr_rerr := stderr_rerr;
     ssh.Session.stdin_werr := None;
     ssh.Session.stdin_taken := 0;
     ssh.Session.ends_unread := true |}.

(** A remote host on which every command behaves as [sess]. *)
Definition toy_remote (sess : ssh.Session.t) : Launcher.t :=
  ssh.Launcher_of
    {| ssh.Client_ :=
         {| ssh.Client.User := "piper";
            ssh.Client.RemoteAddr := "127.0.0.1:22";
            ssh.Client.NewSession := Ok (fun _ => sess);
            ssh.Client.Close := None |} |}.

(** A source that prints a token and exits zero, but whose stderr stream is
    cut; a sink that copies its input and exits zero, but whose stdout
    stream is cut; a sink that copies its input without any error. *)
Definition cut_source : Launchable :=
  {| Launcher_ := toy_remote (session (fun _ => "token") None
                                      (Some reset_by_peer) None);
     Cmd := "echo -n token" |}.

Definition cut_sink : Launchable :=
  {| Launcher_ := toy_remote (session (fun input => input)
                                      (Some broken_pipe) None None);
     Cmd := "cat" |}.

Definition clean_sink : Launchable :=
  {| Launcher_ := toy_remote (session (fun input => input) None None None);
     Cmd := "cat" |}.

(** The executors these launchables yield. *)
Definition remote_exe (sess : ssh.Session.t) (cmd : string) : Executor.t :=
  ssh.Executor_of {| ssh.Session_ := fun _ => sess;
                     ssh.launchdesc := "piper@127.0.0.1:22";
                     ssh.command := cmd |}.

Definition cut_source_exe : Executor.t :=
  remote_exe (session (fun _ => "token") None (Some reset_by_peer) None)
             "echo -n token".

Definition cut_sink_exe : Executor.t :=
  remote_exe (session (fun input => input) (Some broken_pipe) None None) "cat".

Definition clean_sink_exe : Executor.t :=
  remote_exe (session (fun input => input) None None None) "cat".

(** A source that starts, but that neither [Kill] nor [Wait] ends without
    an error; a sink that cannot be started. *)
Definition stubborn_session : ssh.Session.t :=
  {| ssh.Session.Run := Some exit_status_1;
     ssh.Session.Start := None;
     ssh.Session.StderrPipe := None;
     ssh.Session.StdinPipe := None;
     ssh.Session.StdoutPipe := None;
     ssh.Session.Wait := Some exit_status_1;
     ssh.Session.Signal := Some reset_by_peer;
     ssh.Session.proc_stdout := fun _ => "";
     ssh.Session.proc_stderr := fun _ => "";
     ssh.Session.stdout_rerr := None;
     ssh.Session.stderr_rerr := None;
     ssh.Session.stdin_werr := None;
     ssh.Session.stdin_taken := 0;
     ssh.Session.ends_unread := true |}.

Definition unstartable_session : ssh.Session.t :=
  {| ssh.Session.Run := Some reset_by_peer;
     ssh.Session.Start := Some reset_by_peer;
     ssh.Session.StderrPipe := None;
     ssh.Session.StdinPipe := None;
     ssh.Session.StdoutPipe := None;
     ssh.Session.Wait := Some reset_by_peer;
     ssh.Session.Signal := None;
     ssh.Session.proc_stdout := fun _ => "";
     ssh.Session.proc_stderr := fun _ => "";
     ssh.Session.stdout_rerr := None;
     ssh.Session.stderr_rerr := None;
     ssh.Session.stdin_werr := None;
     ssh.Session.stdin_taken := 0;
     ssh.Session.ends_unread := true |}.

Definition stubborn_source : Launchable :=
  {| Launcher_ := toy_remote stubborn_session; Cmd := "yes" |}.

Definition unstartable_sink : Launchable :=
  {| Launcher_ := toy_remote unstartable_session; Cmd := "cat" |}.

Definition boom : goerror := GoError "*errors.errorString" "boom".

(** *** The harness *)

(** The endpoints the caller of the harness requested, in the order in
    which [run] opens them. *)
Definition requested (h : harness.t) : list endpoint :=
  (if harness.stdout h then [Stdout] else [])
  ++ (if harness.stderr h then [Stderr] else [])
  ++ (match harness.stdin h with Some _ => [Stdin] | None => [] end).

Definition open_event (ep : endpoint) : event :=
  match ep with
  | Stdout => EvStdoutPipe
  | Stderr => EvStderrPipe
  | Stdin => EvStdinPipe
  end.

Definition open_result (x : Executor.t) (ep : endpoint) : error :=
  match ep with
  | Stdout => Executor.StdoutPipe x
  | Stderr => Executor.StderrPipe x
  | Stdin => Executor.StdinPipe x
  end.

(** The pattern with which the harness describes an open that fails. *)
Definition open_failure (ep : endpoint) : string :=
  match ep with
  | Stdout => "error opening stdout pipe: %v"
  | Stderr => "error opening stderr pipe: %v"
  | Stdin => "error opening stdin pipe: %v"
  end.

(** The completion value of the task started for an endpoint. *)
Definition task_result (h : harness.t) (ep : endpoint) : error :=
  match ep with
  | Stdout => Executor.stdout_rerr (harness.exe h)
  | Stderr => Executor.stderr_rerr (harness.exe h)
  | Stdin => snd (harness.fed h)
  end.

(** The call the feed task makes once its value is received. *)
Definition feed_close (m : sender) : list event :=
  match from m with
  | Feed => [EvClose Stdin]
  | _ => []
  end.

(** The first non-nil error of a list, nil when there is none. *)
Definition first_nonnil (errs : list error) : error :=
  match nonnil errs with
  | [] => None
  | e :: _ => Some e
  end.

(** A session none of whose stderr pipes can be opened. *)
Definition no_stderr_session : ssh.Session.t :=
  {| ssh.Session.Run := None;
     ssh.Session.Start := None;
     ssh.Session.StderrPipe := Some boom;
     ssh.Session.StdinPipe := None;
     ssh.Session.StdoutPipe := None;
     ssh.Session.Wait := None;
     ssh.Session.Signal := None;
     ssh.Session.proc_stdout := fun _ => "";
     ssh.Session.proc_stderr := fun _ => "";
     ssh.Session.stdout_rerr := None;
     ssh.Session.stderr_rerr := None;
     ssh.Session.stdin_werr := None;
     ssh.Session.stdin_taken := 0;
     ssh.Session.ends_unread := true |}.

(** *** Orders of arrival *)

(** The first [n] values received from the senders [pending], in the order
    in which the schedule lets them through. *)
Fixpoint arrivals {A : Type} (n : nat) (sched : list nat) (pending : list A)
  : list A :=
  match n with
  | 0 => []
  | S n' =>
      match pick (hd 0 sched) pending with
      | Some (a, rest) => a :: arrivals n' (tl sched) rest
      | None => []
      end
  end.

(** The order in which the values of the senders [l] arrive when all of
    them are received. *)
Definition arrival_order {A : Type} (sched : list nat) (l : list A) : list A :=
  arrivals (length l) sched l.

(** *** Proof steps for the harness *)

(** Unfolds the body of [harness.run] up to its receive loop. *)
Ltac harness_unfold :=
  unfold harness.run, harness.bind, harness.when, harness.call, harness.go,
    harness.ret, harness.return_, harness.update, harness.grow_errs,
    harness.set_pstdout, harness.set_pstderr, harness.init;
  cbn -[harness.collect harness.first_err arrivals].

(** Splits the list of requested endpoints at an endpoint in all ways. *)
Ltac split_req H :=
  repeat match type of H with
  | [] = (?b ++ _ :: _)%list => destruct b; discriminate H
  | _ :: _ = (?b ++ _ :: _)%list =>
      destruct b as [|? ?]; cbn [app] in H;
      [injection H as ? ?; subst | injection H as ? H; subst]
  end.

(** *** Further vocabulary *)

(** The separator and the text of every string of a list, one after the
    other. *)
Fixpoint led (sep : string) (l : list string) : string :=
  match l with
  | [] => ""
  | x :: l' => sep ++ x ++ led sep l'
  end.

(** The task the harness starts for an endpoint. *)
Definition task_of (ep : endpoint) : task :=
  match ep with
  | Stdin => Feed
  | _ => Drain ep
  end.

(** The tasks the harness starts, in the order in which it starts them. *)
Definition tasks (h : harness.t) : list sender :=
  map (fun ep => {| from := task_of ep; carries := task_result h ep |})
      (requested h).

(** Every endpoint requested opens. *)
Definition opens_ok (h : harness.t) : Prop :=
  forall ep, In ep (requested h) -> open_result (harness.exe h) ep = None.

Definition event_eq_dec (a b : event) : {a = b} + {a <> b}.
Proof. decide equality. decide equality. Defined.

Definition call_eq_dec (a b : role * event) : {a = b} + {a <> b}.
Proof. decide equality; [apply event_eq_dec | decide equality]. Defined.

(** How many times a call occurs in the trace of a pipe. *)
Definition calls (c : role * event) (tr : list (role * event)) : nat :=
  count_occ call_eq_dec tr c.

(** How [readandwrite] describes the error of a task, by its channel. *)
Definition described (c : chan) (e : goerror) : goerror :=
  match c with
  | Errs => fmt.Errorf "error piping: %v" [VErr e]
  | SrcErrchan => fmt.Errorf "source error: %v" [VErr e]
  | SnkErrchan => fmt.Errorf "sink error: %v" [VErr e]
  end.

(** Whether the value of task [t] is among those that arrived. *)
Definition arrived_from (t : task) (arrived : list sender) : bool :=
  existsb (fun m => pipe.task_eqb (from m) t) arrived.

(** What [Pipe] returns on the toy system when a token is piped into [cat]
    and into [false]. *)
Definition token_into_cat : list (role * event) * PipeResult :=
  Eval vm_compute in
    match Pipe (toy "echo -n 1804289383") (toy "cat") [2; 0; 1] [Snk; Src] with
    | Some o => o
    | None => ([], failed boom)
    end.

Definition token_into_false : list (role * event) * PipeResult :=
  Eval vm_compute in
    match Pipe (toy "echo -n 1804289383") (toy "false") [] [Snk] with
    | Some o => o
    | None => ([], failed boom)
    end.

(** A harness over a remote command that fails in its output drain and at
    Wait, with an input to feed and both destinations given. *)
Definition sample_harness : harness.t :=
  {| harness.exe :=
       remote_exe (session (fun _ => "") (Some broken_pipe) None
                           (Some exit_status_1)) "false";
     harness.stdin := Some "abc";
     harness.stdout := true;
     harness.stderr := true |}.

(** A sink that copies its input but takes two bytes only before writing
    to it fails, and what [Pipe] returns when the token is piped into it. *)
Definition half_session : ssh.Session.t :=
  {| ssh.Session.Run := None;
     ssh.Session.Start := None;
     ssh.Session.StderrPipe := None;
     ssh.Session.StdinPipe := None;
     ssh.Session.StdoutPipe := None;
     ssh.Session.Wait := None;
     ssh.Session.Signal := None;
     ssh.Session.proc_stdout := fun input => input;
     ssh.Session.proc_stderr := fun _ => "";
     ssh.Session.stdout_rerr := None;
     ssh.Session.stderr_rerr := None;
     ssh.Session.stdin_werr := Some broken_pipe;
     ssh.Session.stdin_taken := 2;
     ssh.Session.ends_unread := true |}.

Definition half_sink : Launchable :=
  {| Launcher_ := toy_remote half_session; Cmd := "head -c 2" |}.

Definition half_sink_exe : Executor.t := remote_exe half_session "head -c 2".

Definition token_into_half : list (role * event) * PipeResult :=
  Eval vm_compute in
    match Pipe cut_source half_sink [1; 2; 0; 0] [Snk] with
    | Some o => o
    | None => ([], failed boom)
    end.

(** A source that goes on printing and does not end while what it printed
    is unread. *)
Definition stuck_session : ssh.Session.t :=
  {| ssh.Session.Run := None;
     ssh.Session.Start := None;
     ssh.Session.StderrPipe := None;
     ssh.Session.StdinPipe := None;
     ssh.Session.StdoutPipe := None;
     ssh.Session.Wait := None;
     ssh.Session.Signal := None;
     ssh.Session.proc_stdout := fun _ => "token";
     ssh.Session.proc_stderr := fun _ => "";
     ssh.Session.stdout_rerr := None;
     ssh.Session.stderr_rerr := None;
     ssh.Session.stdin_werr := None;
     ssh.Session.stdin_taken := 0;
     ssh.Session.ends_unread := false |}.

Definition stuck_source : Launchable :=
  {| Launcher_ := toy_remote stuck_session; Cmd := "yes" |}.

Definition stuck_source_exe : Executor.t := remote_exe stuck_session "yes".

(** * Properties *)

(** ** Strings *)

Lemma append_nil_r (s : string) : s ++ "" = s.
Proof. induction s as [|c s IH]; simpl; [reflexivity | now rewrite IH]. Qed.

Lemma append_assoc (a b c : string) : (a ++ b) ++ c = a ++ (b ++ c).
Proof. induction a as [|x a IH]; simpl; [reflexivity | now rewrite IH]. Qed.

Lemma length_append (a b : string) :
  String.length (a ++ b) = String.length a + String.length b.
Proof. induction a as [|x a IH]; simpl; [reflexivity | now rewrite IH]. Qed.

Lemma string_from_append (a b : string) :
  string_from (String.length a) (a ++ b) = b.
Proof. induction a as [|x a IH]; simpl; [now destruct b | exact IH]. Qed.

(** ** Formatting *)

Lemma Sprintf_s_v (sep : string) (e : goerror) :
  Sprintf "%s%v" [VStr sep; VErr e] = sep ++ emsg e.
Proof. unfold Sprintf; simpl. now rewrite append_nil_r. Qed.

Lemma Sprintf_v_str (s : string) : Sprintf "%v" [VStr s] = s.
Proof. unfold Sprintf; simpl. apply append_nil_r. Qed.

(** ** The error aggregator *)

Lemma joinerrs_loop_prefixed (sep : string) (errs : list error) :
  forall errstr,
    joinerrs_loop sep errs errstr = errstr ++ prefixed sep (nonnil errs).
Proof.
  induction errs as [|[e|] errs IH]; intros errstr;
    cbn [joinerrs_loop nonnil prefixed].
  - now rewrite append_nil_r.
  - rewrite IH, Sprintf_s_v, !append_assoc. reflexivity.
  - apply IH.
Qed.

Lemma prefixed_concat (sep : string) (e : goerror) (l : list goerror) :
  prefixed sep (e :: l) = sep ++ String.concat sep (map emsg (e :: l)).
Proof.
  revert e; induction l as [|e' l IH]; intros e.
  - simpl. now rewrite append_nil_r.
  - change (prefixed sep (e :: e' :: l))
      with (sep ++ emsg e ++ prefixed sep (e' :: l)).
    rewrite IH. reflexivity.
Qed.

Lemma nonnil_nil_iff (errs : list error) :
  nonnil errs = [] <-> Forall (fun e => e = None) errs.
Proof.
  induction errs as [|[e|] errs IH]; simpl.
  - split; auto.
  - split; [discriminate | intros H; inversion H; discriminate].
  - rewrite IH. split; [auto | intros H; now inversion H].
Qed.

(** What [joinerrs] computes, for a separator that is not empty. *)
Lemma joinerrs_eq (sep : string) (errs : list error) :
  sep <> "" ->
  joinerrs sep errs =
    match nonnil errs with
    | [] => None
    | l => Some (GoError "*errors.errorString"
                   (String.concat sep (map emsg l)))
    end.
Proof.
  intros Hsep. unfold joinerrs.
  rewrite joinerrs_loop_prefixed. simpl (("" ++ _)%string).
  destruct (nonnil errs) as [|e l].
  - reflexivity.
  - rewrite prefixed_concat, length_append.
    destruct sep as [|c sep]; [congruence|].
    change (0 <? _)%nat with true. cbv iota.
    unfold fmt.Errorf. rewrite Sprintf_v_str, string_from_append.
    reflexivity.
Qed.

Example joinerrs_two :
  joinerrs "; " [Some (GoError "*exec.ExitError" "exit status 1"); None;
                 Some (GoError "*errors.errorString" "EOF")]
  = Some (GoError "*errors.errorString" "exit status 1; EOF").
Proof. reflexivity. Qed.

(** With an empty separator an error whose message is empty is lost; the
    package only ever joins with a separator of two bytes. *)
Example joinerrs_empty_separator :
  joinerrs "" [Some (GoError "*errors.errorString" "")] = None.
Proof. reflexivity. Qed.

(** C3. For every list of errors (each possibly nil) and every separator
    that is not empty (the package joins with semicolon and space),
    [joinerrs] returns nil if and only if all the errors are nil; otherwise
    it returns one error whose message is the messages of all the non-nil
    errors, in their order, joined by the separator. *)
Theorem joinerrs_aggregates (sep : string) (errs : list error) :
  sep <> "" ->
  (joinerrs sep errs = None <-> Forall (fun e => e = None) errs) /\
  (~ Forall (fun e => e = None) errs ->
   exists r, joinerrs sep errs = Some r /\
             emsg r = String.concat sep (map emsg (nonnil errs))).
Proof.
  intros Hsep. rewrite (joinerrs_eq sep errs Hsep), <- nonnil_nil_iff.
  destruct (nonnil errs) as [|e l]; split.
  - tauto.
  - intros H. now elim H.
  - split; discriminate.
  - intros _. eexists. split; reflexivity.
Qed.

Lemma joinerrs_aggregates_witness :
  "; " <> "" /\
  (joinerrs "; " sample_errs = None
   <-> Forall (fun e => e = None) sample_errs) /\
  (~ Forall (fun e => e = None) sample_errs ->
   exists r, joinerrs "; " sample_errs = Some r /\
             emsg r = String.concat "; " (map emsg (nonnil sample_errs))).
Proof.
  assert (H : "; " <> "") by discriminate.
  split; [exact H | exact (joinerrs_aggregates "; " sample_errs H)].
Defined.

(** ** Interleavings *)

Local Open Scope list_scope.

Lemma Interleaving_snoc_left {A : Type} (a : A) (l1 l2 l : list A) :
  Interleaving l1 l2 l -> Interleaving (l1 ++ [a]) l2 (l ++ [a]).
Proof.
  induction 1 as [|b l1 l2 l _ IH|b l1 l2 l _ IH]; simpl.
  - apply il_left, il_nil.
  - apply il_left, IH.
  - apply il_right, IH.
Qed.

Lemma Interleaving_snoc_right {A : Type} (a : A) (l1 l2 l : list A) :
  Interleaving l1 l2 l -> Interleaving l1 (l2 ++ [a]) (l ++ [a]).
Proof.
  induction 1 as [|b l1 l2 l _ IH|b l1 l2 l _ IH]; simpl.
  - apply il_right, il_nil.
  - apply il_left, IH.
  - apply il_right, IH.
Qed.

Lemma Interleaving_In {A : Type} (l1 l2 l : list A) :
  Interleaving l1 l2 l -> forall a, In a l <-> In a l1 \/ In a l2.
Proof.
  induction 1 as [|b l1 l2 l _ IH|b l1 l2 l _ IH]; intros a; simpl.
  - tauto.
  - rewrite IH. tauto.
  - rewrite IH. tauto.
Qed.

Lemma Interleaving_Forall {A : Type} (P : A -> Prop) (l1 l2 l : list A) :
  Interleaving l1 l2 l -> Forall P l1 -> Forall P l2 -> Forall P l.
Proof.
  induction 1 as [|b l1 l2 l _ IH|b l1 l2 l _ IH]; intros H1 H2.
  - constructor.
  - inversion H1; subst. constructor; auto.
  - inversion H2; subst. constructor; auto.
Qed.

(** ** The termination phase of a pipe *)

Lemma wait_inv_init (p : pipe.t) : wait_inv p pipe.wait_init.
Proof. repeat split; apply il_nil. Qed.

Lemma wait_inv_step_src (p : pipe.t) (s : pipe.wait_state) :
  wait_inv p s -> wait_inv p (pipe.step_src p s).
Proof.
  destruct s as [a b c tr]. unfold wait_inv, pipe.step_src.
  cbn [pipe.src_waiter pipe.snk_waiter pipe.waitchan pipe.wait_trace].
  intros (Ha & Hb & Htr & Hc).
  destruct a as [|e|e|];
    cbn [pipe.src_waiter pipe.snk_waiter pipe.waitchan pipe.wait_trace].
  - repeat split; try assumption.
    apply (Interleaving_snoc_left (Src, EvWait) [] _ _ Htr).
  - elim Ha.
  - cbn in Ha. subst e. repeat split; try assumption.
    apply (Interleaving_snoc_left (src_exit p) [] _ _ Hc).
  - repeat split; assumption.
Qed.

Lemma wait_inv_step_snk (p : pipe.t) (s : pipe.wait_state) :
  wait_inv p s -> wait_inv p (pipe.step_snk p s).
Proof.
  destruct s as [a b c tr]. unfold wait_inv, pipe.step_snk.
  cbn [pipe.src_waiter pipe.snk_waiter pipe.waitchan pipe.wait_trace].
  intros (Ha & Hb & Htr & Hc).
  destruct b as [|e|e|];
    cbn [pipe.src_waiter pipe.snk_waiter pipe.waitchan pipe.wait_trace].
  - pose proof (Interleaving_snoc_right (Snk, EvWait) _ [] _ Htr) as Htr'.
    unfold snk_holds, snk_made, snk_calls, snk_exit.
    destruct (Executor.Wait (sink.exe (pipe.snk p))) as [e|];
      repeat split; try assumption; discriminate.
  - destruct Hb as [He Hw]. subst e. repeat split; try assumption.
    pose proof (Interleaving_snoc_right (Src, EvKill) _ [(Snk, EvWait)] _ Htr)
      as Htr'.
    unfold snk_made, snk_calls.
    destruct (Executor.Wait (sink.exe (pipe.snk p))); [exact Htr' | now elim Hw].
  - cbn in Hb. subst e. repeat split; try assumption.
    apply (Interleaving_snoc_right (snk_exit p) _ [] _ Hc).
  - repeat split; assumption.
Qed.

Lemma wait_inv_fold (p : pipe.t) (order : list role) :
  forall s, wait_inv p s -> wait_inv p (fold_left (pipe.step p) order s).
Proof.
  induction order as [|g order IH]; intros s Hs; simpl.
  - exact Hs.
  - apply IH. destruct g; [now apply wait_inv_step_src
                          | now apply wait_inv_step_snk].
Qed.

(** Run to their end, both goroutines have sent. *)
Lemma finish_sent (p : pipe.t) (s : pipe.wait_state) :
  wait_inv p s ->
  let s' := fold_left (pipe.step p) [Src; Src; Snk; Snk; Snk] s in
  pipe.src_waiter s' = pipe.Sent /\ pipe.snk_waiter s' = pipe.Sent.
Proof.
  destruct s as [a b c tr]. intros (Ha & _).
  cbn [pipe.src_waiter] in Ha.
  destruct a as [|e|e|]; [| elim Ha | |];
    destruct b as [|e'|e'|]; cbn;
    try (destruct (Executor.Wait (sink.exe (pipe.snk p))); cbn);
    split; reflexivity.
Qed.

(** Whatever the order of the moves, the calls of [pipe.wait] merge the
    calls of its two goroutines and the two values received merge the two
    values sent. *)
Lemma interleave_complete (p : pipe.t) (order : list role) :
  Interleaving src_calls (snk_calls p) (pipe.wait_trace (pipe.interleave p order))
  /\ Interleaving [src_exit p] [snk_exit p]
       (pipe.waitchan (pipe.interleave p order)).
Proof.
  unfold pipe.interleave. rewrite fold_left_app.
  pose proof (wait_inv_fold p order _ (wait_inv_init p)) as Hinv.
  pose proof (finish_sent p _ Hinv) as [Hsrc Hsnk].
  pose proof (wait_inv_fold p [Src; Src; Snk; Snk; Snk] _ Hinv)
    as (_ & _ & Htr & Hc).
  rewrite Hsrc, Hsnk in Htr, Hc. split; assumption.
Qed.

(** C7. In [pipe.wait] the calls made are, for every order in which the
    two goroutines move, a merge of the source goroutine's calls (Wait on
    the source) and of the sink goroutine's calls (Wait on the sink, then
    Kill on the source when that Wait returned an error): both Waits are
    called, in either order, and Kill is called on the source whenever,
    and only when, the sink's Wait returned a non-nil error. *)
Theorem wait_concurrent_kill (p : pipe.t) :
  (forall order,
     let tr := fst (pipe.wait p order) in
     Interleaving src_calls (snk_calls p) tr /\
     In (Src, EvWait) tr /\ In (Snk, EvWait) tr /\
     (In (Src, EvKill) tr <-> Executor.Wait (sink.exe (pipe.snk p)) <> None))
  /\ (exists order, fst (pipe.wait p order) = (src_calls ++ snk_calls p)%list)
  /\ (exists order, fst (pipe.wait p order) = (snk_calls p ++ src_calls)%list).
Proof.
  split; [|split].
  - intros order. cbn zeta. unfold pipe.wait. cbn [fst].
    destruct (interleave_complete p order) as [Htr _].
    split; [exact Htr|].
    pose proof (Interleaving_In _ _ _ Htr) as Hin.
    rewrite !Hin. unfold src_calls, snk_calls.
    destruct (Executor.Wait (sink.exe (pipe.snk p))) as [e|]; simpl;
      intuition congruence.
  - exists [Src]. unfold pipe.wait, src_calls, snk_calls. cbn.
    destruct (Executor.Wait (sink.exe (pipe.snk p))); reflexivity.
  - exists [Snk; Snk; Snk]. unfold pipe.wait, src_calls, snk_calls. cbn.
    destruct (Executor.Wait (sink.exe (pipe.snk p))); reflexivity.
Qed.

(** ** The collect phase of a pipe *)

Lemma remove_nth_Permutation {A : Type} (l : list A) :
  forall i a, nth_error l i = Some a -> Permutation l (a :: remove_nth i l).
Proof.
  induction l as [|b l IH]; intros [|i] a H; simpl in *; try discriminate.
  - injection H as ->. apply Permutation_refl.
  - apply IH in H. eapply perm_trans; [apply perm_skip, H | apply perm_swap].
Qed.

Lemma pick_some {A : Type} (k : nat) (l : list A) :
  l <> [] ->
  exists a rest, pick k l = Some (a, rest) /\ Permutation l (a :: rest).
Proof.
  intros Hl. unfold pick.
  assert (Hlt : k mod length l < length l).
  { apply Nat.mod_upper_bound. destruct l; [congruence | discriminate]. }
  destruct (nth_error l (k mod length l)) as [a|] eqn:Hnth.
  - exists a, (remove_nth (k mod length l) l). split; [reflexivity|].
    now apply remove_nth_Permutation.
  - apply nth_error_None in Hnth. lia.
Qed.

(** One [select] with a sender pending. *)
Lemma select_some (k : nat) (s : pipe.rw_state) :
  pipe.pending s <> [] ->
  exists m rest,
    Permutation (pipe.pending s) (m :: rest) /\
    pipe.select k s =
      Some {| pipe.err := next_err (pipe.err s) m;
              pipe.dones := S (pipe.dones s);
              pipe.pending := rest;
              pipe.received := pipe.received s ++ [m];
              pipe.rw_trace := pipe.rw_trace s ++ closes m |}.
Proof.
  intros Hp. destruct (pick_some k _ Hp) as (m & rest & Hpick & Hperm).
  exists m, rest. split; [exact Hperm|].
  unfold pipe.select. rewrite Hpick.
  destruct m as [[| |] sd]; unfold next_err, closes; cbn [fst snd];
    try rewrite app_nil_r; destruct (carries sd); reflexivity.
Qed.

(** The loop of [readandwrite] returns once every pending task has
    delivered, whatever the order of delivery. *)
Lemma loop_receives_all (fuel : nat) :
  forall sched s,
    pipe.dones s + length (pipe.pending s) = 4 ->
    4 <= fuel + pipe.dones s ->
    exists s',
      pipe.loop fuel sched s = Some s' /\
      pipe.dones s' = 4 /\
      pipe.pending s' = [] /\
      (exists arrived,
         Permutation arrived (pipe.pending s) /\
         pipe.received s' = pipe.received s ++ arrived /\
         pipe.err s' = fold_left next_err arrived (pipe.err s) /\
         pipe.rw_trace s' = pipe.rw_trace s ++ flat_map closes arrived).
Proof.
  induction fuel as [|fuel IH]; intros sched s Hinv Hfuel.
  - assert (Hd : pipe.dones s = 4) by lia.
    assert (Hp : pipe.pending s = []).
    { destruct (pipe.pending s); [reflexivity | simpl in Hinv; lia]. }
    exists s. cbn [pipe.loop]. rewrite Hd. cbn.
    repeat split; try assumption.
    exists []. rewrite Hp, !app_nil_r. repeat split. constructor.
  - cbn [pipe.loop].
    destruct (4 <=? pipe.dones s)%nat eqn:Hdone.
    + apply Nat.leb_le in Hdone.
      assert (Hd : pipe.dones s = 4) by lia.
      assert (Hp : pipe.pending s = []).
      { destruct (pipe.pending s); [reflexivity | simpl in Hinv; lia]. }
      exists s. repeat split; try assumption.
      exists []. rewrite Hp, !app_nil_r. repeat split. constructor.
    + apply Nat.leb_gt in Hdone.
      assert (Hp : pipe.pending s <> []).
      { intros E. rewrite E in Hinv. simpl in Hinv. lia. }
      destruct (select_some (hd 0 sched) s Hp) as (m & rest & Hperm & Hsel).
      rewrite Hsel.
      pose proof (Permutation_length Hperm) as Hlen. simpl in Hlen.
      match type of Hsel with _ = Some ?st => set (s1 := st) in * end.
      assert (Hinv1 : pipe.dones s1 + length (pipe.pending s1) = 4)
        by (subst s1; cbn [pipe.dones pipe.pending]; lia).
      assert (Hfuel1 : 4 <= fuel + pipe.dones s1)
        by (subst s1; cbn [pipe.dones]; lia).
      destruct (IH (tl sched) s1 Hinv1 Hfuel1)
        as (s' & Hloop & Hd' & Hp' & arrived & Hpa & Hr & He & Ht).
      exists s'. subst s1.
      cbn [pipe.dones pipe.pending pipe.received pipe.err pipe.rw_trace] in *.
      repeat split; try assumption.
      exists (m :: arrived). repeat split.
      * eapply perm_trans; [apply perm_skip, Hpa | now apply Permutation_sym].
      * rewrite Hr, <- app_assoc. reflexivity.
      * rewrite He. reflexivity.
      * rewrite Ht, <- app_assoc. reflexivity.
Qed.

Lemma send_starts (x : Executor.t) :
  source_starts x -> send x = (source_setup, Ok (source_of x)).
Proof.
  intros (Ho & He & Hs). unfold send, pipesout. rewrite Ho, He, Hs.
  reflexivity.
Qed.

Lemma recv_starts (x : Executor.t) :
  sink_starts x -> recv x = (sink_setup, Ok (sink_of x)).
Proof.
  intros (Ho & He & Hi & Hs). unfold recv, pipesout. rewrite Ho, He, Hi, Hs.
  reflexivity.
Qed.

(** [readandwrite] on a pipe set up by [send] and [recv], and whose source
    does not stay blocked, returns after four values have been received:
    the values of the four tasks, in the order [sched] chooses. *)
Lemma readandwrite_returns (srcexe snkexe : Executor.t) (sched : list nat) :
  let p := pipe_of srcexe snkexe in
  pipe.stalled p = false ->
  exists s,
    pipe.readandwrite p sched = Some s /\
    pipe.dones s = 4 /\
    Permutation (pipe.received s) (four_tasks p) /\
    pipe.err s = fold_left next_err (pipe.received s) None /\
    pipe.rw_trace s = flat_map closes (pipe.received s).
Proof.
  intros p Hp. unfold pipe.readandwrite.
  destruct (loop_receives_all 4 sched (pipe.rw_init p))
    as (s & Hloop & Hd & _ & arrived & Hperm & Hr & He & Ht);
    [unfold pipe.rw_init; cbn [pipe.dones pipe.pending]; rewrite Hp;
     reflexivity | cbn; lia |].
  exists s. cbn [pipe.received pipe.rw_init app] in Hr. subst arrived.
  unfold pipe.rw_init in Hperm. cbn [pipe.pending] in Hperm.
  rewrite Hp in Hperm.
  repeat split; assumption.
Qed.

Lemma fold_next_err_nil (rcv : list (chan * sender)) :
  Forall (fun m => carries (snd m) = None) rcv ->
  fold_left next_err rcv None = None.
Proof.
  induction 1 as [|[c sd] rcv Hm _ IH]; [reflexivity|].
  cbn [fold_left]. unfold next_err at 2. cbn [fst snd] in *. rewrite Hm.
  destruct c; exact IH.
Qed.

Lemma drained_Permutation (c : chan) (t : task) (l l' : list (chan * sender)) :
  Permutation l l' -> pipe.drained c t l = pipe.drained c t l'.
Proof.
  unfold pipe.drained. induction 1 as [|m l l' _ IH|m m' l|l l' l'' _ IH1 _ IH2];
    cbn [existsb].
  - reflexivity.
  - now rewrite IH.
  - now rewrite !orb_assoc, (orb_comm (_ && _) (_ && _)).
  - now rewrite IH1.
Qed.

Lemma copy_to_writer_ok (w : writer) (rc : reader) :
  werr w = None -> copy_to_writer w rc = (rdata rc, rerr rc).
Proof. intros Hw. unfold copy_to_writer, cut_short. now rewrite Hw. Qed.

(** A source whose sink takes all that is written to it does not stay
    blocked. *)
Lemma not_stalled (srcexe snkexe : Executor.t) :
  Executor.stdin_werr snkexe = None ->
  pipe.stalled (pipe_of srcexe snkexe) = false.
Proof.
  intros Hw. unfold pipe.stalled, cut_short, pipe_of, sink_of.
  cbn [pipe.snk sink.stdin werr]. now rewrite Hw.
Qed.

(** [joinerrs] of values that are all nil. *)
Lemma joinerrs_nil (errs : list error) :
  Forall (fun e => e = None) errs -> joinerrs "; " errs = None.
Proof.
  intros H. rewrite joinerrs_eq by discriminate.
  apply nonnil_nil_iff in H. now rewrite H.
Qed.

Lemma joinerrs_nil_inv (errs : list error) :
  joinerrs "; " errs = None -> Forall (fun e => e = None) errs.
Proof.
  rewrite joinerrs_eq by discriminate. intros H. apply nonnil_nil_iff.
  destruct (nonnil errs); [reflexivity | discriminate].
Qed.

(** ** Pipes that run to their end *)

(** What [Pipe] does once both sides are set up. *)
Lemma Pipe_runs (srclch snklch : Launchable) (srcexe snkexe : Executor.t)
  (sched : list nat) (order : list role) :
  LaunchCmd srclch = Ok srcexe -> LaunchCmd snklch = Ok snkexe ->
  source_starts srcexe -> sink_starts snkexe ->
  Pipe srclch snklch sched order =
    match pipe.run (pipe_of srcexe snkexe) sched order with
    | None => None
    | Some (tr, pr) =>
        Some ([(Src, EvLaunch); (Snk, EvLaunch)] ++ tag Src source_setup
              ++ tag Snk sink_setup ++ tr, pr)
    end.
Proof.
  intros Hsrc Hsnk Hs Hr. unfold Pipe.
  rewrite Hsrc, Hsnk, (send_starts _ Hs), (recv_starts _ Hr). reflexivity.
Qed.

(** C8. For any token T: when the source writes exactly T to its output,
    the sink copies its input to its output, both sides are set up, all I/O
    succeeds and both commands exit zero, [Pipe] returns, in whatever order
    the tasks complete, a result whose SnkStdout is T and whose Err is
    nil. *)
Theorem Pipe_passes_token (srclch snklch : Launchable)
  (srcexe snkexe : Executor.t) (T : string)
  (sched : list nat) (order : list role) :
  LaunchCmd srclch = Ok srcexe -> LaunchCmd snklch = Ok snkexe ->
  source_starts srcexe -> sink_starts snkexe ->
  Executor.proc_stdout srcexe "" = T ->
  (forall input, Executor.proc_stdout snkexe input = input) ->
  clean_io srcexe snkexe ->
  Executor.Wait srcexe = None -> Executor.Wait snkexe = None ->
  exists tr pr,
    Pipe srclch snklch sched order = Some (tr, pr) /\
    SnkStdout pr = T /\ Err_ pr = None.
Proof.
  intros Hsrc Hsnk Hs Hr HT Hcat (Hso & Hse & Hki & Hko & Hke) Hws Hwk.
  rewrite (Pipe_runs _ _ _ _ sched order Hsrc Hsnk Hs Hr).
  unfold pipe.run.
  pose proof (not_stalled srcexe snkexe Hki) as Hflow.
  destruct (readandwrite_returns srcexe snkexe sched Hflow)
    as (s & Hrw & _ & Hperm & Herr & _).
  rewrite Hrw.
  assert (Hconn : pipe.connect (pipe_of srcexe snkexe) = (T, None)).
  { unfold pipe.connect, pipe_of, sink_of, source_of.
    cbn [pipe.src pipe.snk sink.stdin source.stdout].
    rewrite copy_to_writer_ok by exact Hki. cbn [rdata rerr].
    now rewrite HT, Hso. }
  assert (Hnil : pipe.err s = None).
  { rewrite Herr. apply fold_next_err_nil.
    eapply Permutation_Forall; [apply Permutation_sym, Hperm|].
    unfold four_tasks. rewrite Hconn.
    cbn. rewrite Hse, Hke, Hko. repeat constructor. }
  assert (Hwait : snd (pipe.wait (pipe_of srcexe snkexe) order) = None).
  { unfold pipe.wait. cbn [snd].
    destruct (interleave_complete (pipe_of srcexe snkexe) order) as [_ Hc].
    apply joinerrs_nil.
    apply (Interleaving_Forall _ _ _ _ Hc).
    - unfold src_exit. cbn. rewrite Hws. repeat constructor.
    - unfold snk_exit. cbn. rewrite Hwk. repeat constructor. }
  destruct (pipe.wait (pipe_of srcexe snkexe) order) as [wtr werr].
  cbn [snd] in Hwait. subst werr.
  eexists _, _. split; [reflexivity|]. cbn [SnkStdout Err_]. split.
  - unfold pipe.buffer. rewrite (drained_Permutation _ _ _ _ Hperm).
    rewrite Hconn. cbn. apply Hcat.
  - rewrite Hnil. reflexivity.
Qed.

Lemma Pipe_passes_token_witness :
  exists tr pr,
    Pipe (toy "echo -n 1804289383") (toy "cat") [2; 0; 1] [Snk; Src] = Some (tr, pr) /\
    SnkStdout pr = "1804289383" /\ Err_ pr = None.
Proof.
  apply (Pipe_passes_token (toy "echo -n 1804289383") (toy "cat")
           (local.Executor_of {| local.Cmd_ := toy_sh "echo -n 1804289383";
                                 local.command := "echo -n 1804289383" |})
           (local.Executor_of {| local.Cmd_ := toy_sh "cat";
                                 local.command := "cat" |}));
    try reflexivity.
  - repeat split.
  - repeat split.
  - repeat split.
Defined.

(** [Pipe]'s error is nil only if both commands exited zero and
    [readandwrite] returned nil. *)
Lemma run_nil_exits (p : pipe.t) (sched : list nat) (order : list role)
  (tr : list (role * event)) (pr : PipeResult) :
  pipe.run p sched order = Some (tr, pr) -> Err_ pr = None ->
  Executor.Wait (source.exe (pipe.src p)) = None /\
  Executor.Wait (sink.exe (pipe.snk p)) = None /\
  exists s, pipe.readandwrite p sched = Some s /\ pipe.err s = None.
Proof.
  unfold pipe.run. destruct (pipe.readandwrite p sched) as [s|]; [|discriminate].
  unfold pipe.wait.
  destruct (interleave_complete p order) as [_ Hc].
  intros H. injection H as _ <-. cbn [Err_]. intros Hnil.
  apply joinerrs_nil_inv in Hnil.
  inversion Hnil as [|? ? Herr Hrest]; subst.
  inversion Hrest as [|? ? Hw _]; subst.
  apply joinerrs_nil_inv in Hw. rewrite Forall_forall in Hw.
  pose proof (Interleaving_In _ _ _ Hc) as Hin.
  assert (Hs : src_exit p = None) by (apply Hw, Hin; left; now left).
  assert (Hk : snk_exit p = None) by (apply Hw, Hin; right; now left).
  unfold src_exit in Hs. unfold snk_exit in Hk.
  repeat split.
  - destruct (Executor.Wait (source.exe (pipe.src p))); [discriminate | reflexivity].
  - destruct (Executor.Wait (sink.exe (pipe.snk p))); [discriminate | reflexivity].
  - exists s. split; [reflexivity | exact Herr].
Qed.

(** C1. [readandwrite] does wait for the four completion values (see
    [readandwrite_returns]), but the error it returns is not the first
    non-nil one received. On a pipe whose source's stderr stream and whose
    sink's stdout stream are both cut: when the copy completes last but one,
    the two errors received before it are forgotten and nil is returned;
    when the copy completes first, the error received last replaces the one
    received first. *)
Theorem readandwrite_not_first_error :
  (exists s,
     pipe.readandwrite (pipe_of cut_source_exe cut_sink_exe) [1; 2; 0; 0]
       = Some s /\
     pipe.dones s = 4 /\
     map (fun m => (fst m, carries (snd m))) (pipe.received s)
       = [(SrcErrchan, Some reset_by_peer); (SnkErrchan, Some broken_pipe);
          (Errs, None); (SnkErrchan, None)] /\
     first_seen (pipe.received s)
       = Some (fmt.Errorf "source error: %v" [VErr reset_by_peer]) /\
     pipe.err s = None) /\
  (exists s,
     pipe.readandwrite (pipe_of cut_source_exe cut_sink_exe) [0; 0; 1; 0]
       = Some s /\
     pipe.dones s = 4 /\
     map (fun m => (fst m, carries (snd m))) (pipe.received s)
       = [(Errs, None); (SrcErrchan, Some reset_by_peer);
          (SnkErrchan, Some broken_pipe); (SnkErrchan, None)] /\
     first_seen (pipe.received s)
       = Some (fmt.Errorf "source error: %v" [VErr reset_by_peer]) /\
     pipe.err s = Some (fmt.Errorf "sink error: %v" [VErr broken_pipe])).
Proof.
  split; eexists; (split; [reflexivity|]); repeat split; reflexivity.
Qed.

(** C2. A pipe whose source's stderr drain fails, and none of whose other
    tasks or commands fails, returns a nil Err when that drain is the first
    task to complete: the copy, completing after it with nil, erases the
    error. *)
Theorem Pipe_nil_despite_io_error :
  LaunchCmd cut_source = Ok cut_source_exe /\
  LaunchCmd clean_sink = Ok clean_sink_exe /\
  Executor.stderr_rerr cut_source_exe = Some reset_by_peer /\
  Executor.Wait cut_source_exe = None /\
  Executor.Wait clean_sink_exe = None /\
  exists tr pr,
    Pipe cut_source clean_sink [1; 0; 0; 0] [] = Some (tr, pr) /\
    Err_ pr = None.
Proof.
  repeat split. eexists _, _. split; reflexivity.
Qed.

(** ** Pipes whose sink cannot be set up *)

(** A sink that is not set up makes [recv] fail, without a call to [Wait]
    or [Kill] on the sink. *)
Lemma recv_fails (x : Executor.t) :
  ~ sink_starts x ->
  exists tr err,
    recv x = (tr, Err err) /\ ~ In EvWait tr /\ ~ In EvKill tr.
Proof.
  intros Hn. unfold recv, pipesout, sink_starts in *.
  destruct (Executor.StdoutPipe x) as [e|].
  { eexists _, _. split; [reflexivity|]. simpl. intuition congruence. }
  destruct (Executor.StderrPipe x) as [e|].
  { eexists _, _. split; [reflexivity|]. simpl. intuition congruence. }
  destruct (Executor.StdinPipe x) as [e|].
  { eexists _, _. split; [reflexivity|]. simpl. intuition congruence. }
  destruct (Executor.Start x) as [e|].
  { eexists _, _. split; [reflexivity|]. simpl. intuition congruence. }
  elim Hn. repeat split.
Qed.

(** C6. When the sink's setup (one of its opens, or its Start) fails after
    the source has started, [Pipe] ends by calling Kill and then Wait on
    the source, and the error it returns is the error of the sink's setup,
    that [recv] built: whatever Kill and Wait on the source return is left
    out of it. *)
Theorem Pipe_sink_setup_failure (srclch snklch : Launchable)
  (srcexe snkexe : Executor.t) (sched : list nat) (order : list role) :
  LaunchCmd srclch = Ok srcexe -> LaunchCmd snklch = Ok snkexe ->
  source_starts srcexe -> ~ sink_starts snkexe ->
  exists trsnk err,
    recv snkexe = (trsnk, Err err) /\
    Pipe srclch snklch sched order =
      Some ([(Src, EvLaunch); (Snk, EvLaunch)] ++ tag Src source_setup
            ++ tag Snk trsnk ++ [(Src, EvKill); (Src, EvWait)],
            {| SrcStderr := ""; SnkStderr := ""; SnkStdout := "";
               Err_ := Some err |}).
Proof.
  intros Hsrc Hsnk Hs Hn.
  destruct (recv_fails snkexe Hn) as (trsnk & err & Hrecv & _).
  exists trsnk, err. split; [exact Hrecv|].
  unfold Pipe. rewrite Hsrc, Hsnk, (send_starts _ Hs), Hrecv. reflexivity.
Qed.

Lemma Pipe_sink_setup_failure_witness :
  Executor.Kill (remote_exe stubborn_session "yes") = Some reset_by_peer /\
  Executor.Wait (remote_exe stubborn_session "yes") = Some exit_status_1 /\
  exists trsnk err,
    recv (remote_exe unstartable_session "cat") = (trsnk, Err err) /\
    Pipe stubborn_source unstartable_sink [] [] =
      Some ([(Src, EvLaunch); (Snk, EvLaunch)] ++ tag Src source_setup
            ++ tag Snk trsnk ++ [(Src, EvKill); (Src, EvWait)],
            {| SrcStderr := ""; SnkStderr := ""; SnkStdout := "";
               Err_ := Some err |}).
Proof.
  split; [reflexivity | split; [reflexivity|]].
  apply (Pipe_sink_setup_failure stubborn_source unstartable_sink
           (remote_exe stubborn_session "yes")
           (remote_exe unstartable_session "cat")).
  - reflexivity.
  - reflexivity.
  - repeat split.
  - intros (_ & _ & _ & H). discriminate H.
Defined.

Example Pipe_unstartable_sink :
  Pipe stubborn_source unstartable_sink [] [] =
    Some ([(Src, EvLaunch); (Snk, EvLaunch); (Src, EvStdoutPipe);
           (Src, EvStderrPipe); (Src, EvStart); (Snk, EvStdoutPipe);
           (Snk, EvStderrPipe); (Snk, EvStdinPipe); (Snk, EvStart);
           (Src, EvKill); (Src, EvWait)],
          {| SrcStderr := ""; SnkStderr := ""; SnkStdout := "";
             Err_ := Some (GoError "*errors.errorString"
                      ("cmd piper@127.0.0.1:22{cat} :: error starting pipe sink: "
                       ++ "read tcp 127.0.0.1:22: connection reset by peer")%string) |}).
Proof. reflexivity. Qed.

(** ** Launchers *)

Lemma Sprintf_s_colon (s : string) :
  Sprintf "%s: " [VStr s] = (s ++ ": ")%string.
Proof. reflexivity. Qed.

Lemma Sprintf_s_colon_v (s : string) (e : goerror) :
  Sprintf "%s: %v" [VStr s; VErr e] = (s ++ ": " ++ emsg e)%string.
Proof. unfold Sprintf. simpl. now rewrite append_nil_r. Qed.

(** The remote launcher's [Errorf] prepends the launcher's description to
    the formatted message. *)
Lemma ssh_Errorf_identity (l : ssh.Launcher) (pat : string)
  (args : list value) :
  emsg (ssh.Errorf l pat args)
  = (ssh.String l ++ ": : " ++ Sprintf pat args)%string.
Proof.
  unfold ssh.Errorf, fmt.Errorf. cbn [emsg].
  rewrite Sprintf_s_colon, Sprintf_s_colon_v. cbn [emsg].
  now rewrite append_assoc.
Qed.

(** C9. The local launcher's [Errorf] does not do what the contract says:
    asked to describe the failure to start a command, it returns a message
    that does not begin with the launcher's description, and that is not
    the pattern formatted with the arguments either, the arguments having
    been passed on as one slice. *)
Theorem local_Errorf_no_identity :
  emsg (local.Errorf local.MkLauncher "error starting %s: %v"
          [VStr "true"; VErr boom])
    = "error starting [true boom]: %!v(MISSING)" /\
  String.prefix (local.String local.MkLauncher)
    (emsg (local.Errorf local.MkLauncher "error starting %s: %v"
             [VStr "true"; VErr boom])) = false /\
  Sprintf "error starting %s: %v" [VStr "true"; VErr boom]
    = "error starting true: boom".
Proof. repeat split. Qed.

(** C10. Launching locally never fails: for every command, [Launch]
    returns a handle and no error; the handle carries the command, and its
    Start and Wait are those of the command [sh -c cmd], so that a failure
    shows only there. *)
Theorem local_Launch_never_fails
  (CommandContext : string -> list string -> local.Cmd.t)
  (l : local.Launcher) (cmd : string) :
  exists x,
    local.Launch CommandContext l cmd = Ok x /\
    Executor.Command x = cmd /\
    Executor.Start x = local.Cmd.Start (CommandContext "sh" ["-c"; cmd]) /\
    Executor.Wait x = local.Cmd.Wait (CommandContext "sh" ["-c"; cmd]).
Proof. eexists. repeat split. Qed.

(** ** Orders of arrival *)

Lemma arrivals_Permutation {A : Type} (n : nat) :
  forall (sched : list nat) (l : list A),
    length l = n -> Permutation (arrivals n sched l) l.
Proof.
  induction n as [|n IH]; intros sched l Hlen.
  - destruct l; [constructor | discriminate].
  - assert (Hne : l <> []) by (intros E; rewrite E in Hlen; discriminate).
    destruct (pick_some (hd 0 sched) l Hne) as (a & rest & Hpick & Hperm).
    cbn [arrivals]. rewrite Hpick.
    pose proof (Permutation_length Hperm) as Hl. simpl in Hl.
    eapply perm_trans; [apply perm_skip, IH; lia | now apply Permutation_sym].
Qed.

Lemma arrival_order_Permutation {A : Type} (sched : list nat) (l : list A) :
  Permutation (arrival_order sched l) l.
Proof. now apply arrivals_Permutation. Qed.

Lemma pick_nth {A : Type} (l : list A) :
  forall i a, nth_error l i = Some a -> pick i l = Some (a, remove_nth i l).
Proof.
  intros i a H. unfold pick.
  assert (Hi : i < length l) by (apply nth_error_Some; congruence).
  rewrite (Nat.mod_small _ _ Hi), H. reflexivity.
Qed.

(** Every order of the senders is the order of arrival of some schedule. *)
Lemma arrival_order_any {A : Type} (order : list A) :
  forall l, Permutation order l ->
            exists sched, arrival_order sched l = order.
Proof.
  unfold arrival_order.
  induction order as [|a order IH]; intros l Hperm.
  - apply Permutation_nil in Hperm. subst l. now exists [].
  - assert (Hin : In a l) by (apply (Permutation_in _ Hperm); now left).
    destruct (In_nth_error _ _ Hin) as [i Hi].
    pose proof (remove_nth_Permutation l i a Hi) as Hl.
    assert (Hrest : Permutation order (remove_nth i l)).
    { apply (Permutation_cons_inv (a := a)).
      eapply perm_trans; [exact Hperm | exact Hl]. }
    destruct (IH _ Hrest) as [sched Hs].
    exists (i :: sched).
    pose proof (Permutation_length Hl) as Hlen. simpl in Hlen.
    rewrite Hlen. cbn [arrivals hd tl]. rewrite (pick_nth l i a Hi).
    f_equal. exact Hs.
Qed.

Lemma arrived_from_Permutation (t : task) (l l' : list sender) :
  Permutation l l' -> arrived_from t l = arrived_from t l'.
Proof.
  unfold arrived_from.
  induction 1 as [|m l l' _ IH|m m' l|l l' l'' _ IH1 _ IH2]; cbn [existsb].
  - reflexivity.
  - now rewrite IH.
  - now rewrite !orb_assoc, (orb_comm (pipe.task_eqb _ _) (pipe.task_eqb _ _)).
  - now rewrite IH1.
Qed.

Lemma feed_close_Permutation (l l' : list sender) :
  Permutation l l' -> flat_map feed_close l = flat_map feed_close l'.
Proof.
  induction 1 as [|m l l' _ IH|m m' l|l l' l'' _ IH1 _ IH2]; cbn [flat_map].
  - reflexivity.
  - now rewrite IH.
  - unfold feed_close. destruct (from m), (from m'); reflexivity.
  - now rewrite IH1.
Qed.

(** ** The harness *)

Lemma first_err_first_nonnil (errs : list error) :
  harness.first_err errs None = first_nonnil errs.
Proof.
  unfold first_nonnil.
  induction errs as [|[e|] errs IH]; simpl; [reflexivity | reflexivity | exact IH].
Qed.

(** The receipt of a value leaves the calls of [run] as they are; the feed
    task has its Close left to make. *)
Lemma completed_fields (h : harness.t) (m : sender) (s : harness.state) :
  harness.trace (harness.completed h m s) = harness.trace s /\
  harness.feed_calls (harness.completed h m s)
  = harness.feed_calls s ++ feed_close m /\
  harness.errs (harness.completed h m s) = harness.errs s /\
  harness.out (harness.completed h m s)
  = (if pipe.task_eqb (from m) (Drain Stdout)
     then Executor.proc_stdout (harness.exe h) (fst (harness.fed h))
     else harness.out s) /\
  harness.errout (harness.completed h m s)
  = (if pipe.task_eqb (from m) (Drain Stderr)
     then Executor.proc_stderr (harness.exe h) (fst (harness.fed h))
     else harness.errout s).
Proof.
  unfold harness.completed, feed_close.
  destruct (from m) as [[| |]| |]; cbn; rewrite ?app_nil_r; repeat split.
Qed.

(** The receive loop of the harness returns once every task started has
    delivered its value, whatever the order of delivery: the values are
    stored in the order of their arrival. *)
Lemma collect_returns {R : Type} (h : harness.t) (n : nat) :
  forall sched s,
    length (harness.errchan s) = n ->
    exists s',
      @harness.collect R h n sched s = (s', harness.Next tt) /\
      harness.errs s'
      = harness.errs s ++ map carries (arrivals n sched (harness.errchan s)) /\
      harness.trace s' = harness.trace s /\
      harness.feed_calls s'
      = harness.feed_calls s
        ++ flat_map feed_close (arrivals n sched (harness.errchan s)) /\
      harness.out s'
      = (if arrived_from (Drain Stdout) (arrivals n sched (harness.errchan s))
         then Executor.proc_stdout (harness.exe h) (fst (harness.fed h))
         else harness.out s) /\
      harness.errout s'
      = (if arrived_from (Drain Stderr) (arrivals n sched (harness.errchan s))
         then Executor.proc_stderr (harness.exe h) (fst (harness.fed h))
         else harness.errout s).
Proof.
  induction n as [|n IH]; intros sched s Hlen.
  - exists s. cbn. rewrite !app_nil_r. repeat split.
  - assert (Hne : harness.errchan s <> []).
    { intros E. rewrite E in Hlen. discriminate. }
    destruct (pick_some (hd 0 sched) _ Hne) as (m & rest & Hpick & Hperm).
    cbn [harness.collect arrivals]. unfold harness.bind at 1.
    unfold harness.receive at 1. rewrite Hpick.
    destruct (completed_fields h m s) as (Htr & Hfc & Herrs & Hout & Herrout).
    match goal with
    | |- context [harness.collect h n (tl sched) ?st] => set (s1 := st)
    end.
    pose proof (Permutation_length Hperm) as Hl. simpl in Hl.
    destruct (IH (tl sched) s1) as (s' & Hc & Hes & Ht & Hf & Ho & He).
    { subst s1. cbn [harness.errchan]. lia. }
    exists s'. rewrite Hc.
    subst s1.
    cbn [harness.errchan harness.errs harness.trace harness.out
         harness.errout harness.feed_calls] in *.
    unfold arrived_from in *. cbn [existsb map flat_map].
    repeat split.
    + rewrite Hes, Herrs, <- app_assoc. reflexivity.
    + rewrite Ht, Htr. reflexivity.
    + rewrite Hf, Hfc, <- app_assoc. reflexivity.
    + rewrite Ho, Hout.
      destruct (pipe.task_eqb (from m) (Drain Stdout)),
        (existsb (fun m0 => pipe.task_eqb (from m0) (Drain Stdout))
           (arrivals n (tl sched) rest));
        reflexivity.
    + rewrite He, Herrout.
      destruct (pipe.task_eqb (from m) (Drain Stderr)),
        (existsb (fun m0 => pipe.task_eqb (from m0) (Drain Stderr))
           (arrivals n (tl sched) rest));
        reflexivity.
Qed.

(** The harness run to its end, the endpoints requested having opened and
    Start having succeeded: the calls of [run], the call left to the feed
    task, the values received in their order of arrival, what was captured
    and what is returned. *)
Lemma harness_completes (h : harness.t) (sched : list nat) :
  (forall ep, In ep (requested h) ->
              open_result (harness.exe h) ep = None) ->
  Executor.Start (harness.exe h) = None ->
  exists s r,
    harness.run h sched harness.init = (s, harness.Next r) /\
    harness.errs s = map carries (arrival_order sched (tasks h)) /\
    harness.trace s = map open_event (requested h) ++ [EvStart; EvWait] /\
    harness.feed_calls s
      = (match harness.stdin h with
         | Some _ => [EvClose Stdin]
         | None => []
         end) /\
    harness.out s
      = (if harness.stdout h
         then Executor.proc_stdout (harness.exe h) (fst (harness.fed h))
         else ""%string) /\
    harness.errout s
      = (if harness.stderr h
         then Executor.proc_stderr (harness.exe h) (fst (harness.fed h))
         else ""%string) /\
    r = match Executor.Wait (harness.exe h) with
        | Some e =>
            Some (Executor.Errorf (harness.exe h)
                    "completed with error: %v" [VErr e])
        | None => first_nonnil (map carries (arrival_order sched (tasks h)))
        end.
Proof.
  intros Hopen Hstart.
  assert (Ho : harness.stdout h = true ->
               Executor.StdoutPipe (harness.exe h) = None).
  { intros E. apply (Hopen Stdout). unfold requested. rewrite E. now left. }
  assert (He : harness.stderr h = true ->
               Executor.StderrPipe (harness.exe h) = None).
  { intros E. apply (Hopen Stderr). unfold requested. rewrite E.
    apply in_or_app. right. now left. }
  assert (Hi : harness.stdin h <> None ->
               Executor.StdinPipe (harness.exe h) = None).
  { intros E. apply (Hopen Stdin). unfold requested.
    apply in_or_app. right. apply in_or_app. right.
    destruct (harness.stdin h); [now left | congruence]. }
  clear Hopen.
  unfold arrival_order, tasks, task_result, requested.
  remember (snd (harness.fed h)) as fed_err eqn:Hfed.
  remember (fst (harness.fed h)) as fed_in eqn:Hfedin.
  assert (Hfed' : forall R, @harness.go R Feed (snd (harness.fed h))
                            = harness.go Feed fed_err) by (now subst).
  unfold harness.run at 1. rewrite Hfed'. clear Hfed Hfed'.
  destruct h as [x input so se].
  cbn [harness.exe harness.stdin harness.stdout harness.stderr] in *.
  set (h := {| harness.exe := x; harness.stdin := input;
               harness.stdout := so; harness.stderr := se |}) in *.
  destruct x as [cmd errorf xrun xstart xerrp xinp xoutp xwait xkill
                 pout perr orerr ererr iwerr itaken eunread].
  cbn [Executor.StdoutPipe Executor.StderrPipe Executor.StdinPipe
       Executor.Start] in Ho, He, Hi, Hstart.
  subst xstart.
  destruct so; [rewrite (Ho eq_refl) in *|]; clear Ho;
  (destruct se; [rewrite (He eq_refl) in *|]); clear He;
  (destruct input as [input|];
   [rewrite (Hi ltac:(discriminate)) in *|]); clear Hi;
  harness_unfold;
  match goal with
  | |- context [@harness.collect ?R ?h0 ?n ?sc ?st] =>
      destruct (@collect_returns R h0 n sc st eq_refl)
        as (s' & Hc & Herrs & Htr & Hfc & Hout & Herrout);
      pose proof (arrivals_Permutation n sc (harness.errchan st) eq_refl)
        as Hperm;
      rewrite Hc
  end;
  cbn [harness.errchan harness.errs harness.trace harness.out harness.errout
       harness.feed_calls harness.exe Executor.proc_stdout
       Executor.proc_stderr app]
    in Hperm, Herrs, Htr, Hfc, Hout, Herrout;
  rewrite (arrived_from_Permutation (Drain Stdout) _ _ Hperm) in Hout;
  rewrite (arrived_from_Permutation (Drain Stderr) _ _ Hperm) in Herrout;
  rewrite (feed_close_Permutation _ _ Hperm) in Hfc;
  cbn [arrived_from existsb pipe.task_eqb pipe.endpoint_eqb from orb flat_map
       feed_close app] in Hout, Herrout, Hfc;
  try rewrite <- Hfedin in Hout; try rewrite <- Hfedin in Herrout;
  destruct xwait as [e|];
  eexists _, _;
  (split; [reflexivity|]);
  cbn [harness.errs harness.trace harness.out harness.errout
       harness.feed_calls map app open_event length task_of carries];
  rewrite ?first_err_first_nonnil, ?Herrs, Htr, Hfc, Hout, Herrout;
  repeat split.
Qed.

(** C4. When the endpoints requested have opened and Start has succeeded,
    the harness returns, having received the completion values of its tasks
    in the order in which they arrived, an order that the schedule chooses
    and that can be any order of the tasks. If Wait returns an error, the
    harness returns that error, described by the handle's Errorf, whatever
    the tasks reported; only if Wait returns nil does it return a task's
    error: the first non-nil one in the order of arrival. *)
Theorem harness_error_precedence (h : harness.t) (sched : list nat) :
  (forall ep, In ep (requested h) ->
              open_result (harness.exe h) ep = None) ->
  Executor.Start (harness.exe h) = None ->
  (exists s r,
     harness.run h sched harness.init = (s, harness.Next r) /\
     harness.errs s = map carries (arrival_order sched (tasks h)) /\
     r = match Executor.Wait (harness.exe h) with
         | Some e =>
             Some (Executor.Errorf (harness.exe h)
                     "completed with error: %v" [VErr e])
         | None => first_nonnil (map carries (arrival_order sched (tasks h)))
         end) /\
  Permutation (arrival_order sched (tasks h)) (tasks h) /\
  (forall order, Permutation order (tasks h) ->
                 exists sched', arrival_order sched' (tasks h) = order).
Proof.
  intros Hopen Hstart. split; [|split].
  - destruct (harness_completes h sched Hopen Hstart)
      as (s & r & Hrun & Herrs & _ & _ & _ & _ & Hr).
    exists s, r. repeat split; assumption.
  - apply arrival_order_Permutation.
  - intros order. apply arrival_order_any.
Qed.

(** An open that fails: the endpoints opened before it are closed and the
    harness returns, without a call to Start. *)
Lemma harness_open_fails (h : harness.t) (sched : list nat)
  (before after : list endpoint) (ep : endpoint) (e : goerror) :
  requested h = before ++ ep :: after ->
  (forall ep', In ep' before -> open_result (harness.exe h) ep' = None) ->
  open_result (harness.exe h) ep = Some e ->
  exists s,
    harness.run h sched harness.init
      = (s, harness.Return
              (Some (Executor.Errorf (harness.exe h) (open_failure ep)
                       [VErr e]))) /\
    harness.trace s
      = map open_event (before ++ [ep]) ++ map EvClose before /\
    ~ In EvStart (harness.trace s).
Proof.
  intros Hreq Hbefore Hep.
  destruct h as [x input so se].
  destruct x as [cmd errorf xrun xstart xerrp xinp xoutp xwait xkill
                 pout perr orerr ererr iwerr itaken eunread].
  unfold requested in Hreq.
  cbn [harness.exe harness.stdin harness.stdout harness.stderr] in *.
  pose proof (Hbefore Stdout) as Hb1. pose proof (Hbefore Stderr) as Hb2.
  clear Hbefore.
  destruct so, se, input as [input|]; cbn [app] in Hreq; split_req Hreq;
    cbn [open_result Executor.StdoutPipe Executor.StderrPipe
         Executor.StdinPipe In] in Hep, Hb1, Hb2;
    subst;
    try (rewrite Hb1 in * by tauto); try (rewrite Hb2 in * by tauto);
    harness_unfold;
    (eexists; split; [reflexivity|]);
    (split; [reflexivity|]); cbn; intuition discriminate.
Qed.

(** A Start that fails, the endpoints requested having opened. *)
Lemma harness_start_fails (h : harness.t) (sched : list nat) (e : goerror) :
  (forall ep, In ep (requested h) ->
              open_result (harness.exe h) ep = None) ->
  Executor.Start (harness.exe h) = Some e ->
  exists s,
    harness.run h sched harness.init
      = (s, harness.Return
              (Some (Executor.Errorf (harness.exe h) "error starting: %v"
                       [VErr e]))) /\
    harness.trace s = map open_event (requested h) ++ [EvStart].
Proof.
  intros Hopen Hstart.
  pose proof (Hopen Stdout) as Ho. pose proof (Hopen Stderr) as He.
  pose proof (Hopen Stdin) as Hi. clear Hopen.
  destruct h as [x input so se].
  destruct x as [cmd errorf xrun xstart xerrp xinp xoutp xwait xkill
                 pout perr orerr ererr iwerr itaken eunread].
  unfold requested in *.
  cbn [harness.exe harness.stdin harness.stdout harness.stderr open_result
       Executor.StdoutPipe Executor.StderrPipe Executor.StdinPipe
       Executor.Start] in *.
  subst xstart.
  destruct so, se, input as [input|]; cbn [app In] in Ho, He, Hi;
    try (rewrite Ho in * by tauto); try (rewrite He in * by tauto);
    try (rewrite Hi in * by tauto);
    harness_unfold; eexists; split; reflexivity.
Qed.

(** C5. The harness opens the endpoints requested in the order output,
    error-output, input. If an open fails, the endpoints opened before it
    are closed and the harness returns at once the error of that open,
    described by the handle's Errorf: Start is not called. If every open
    succeeds, the opens of the endpoints requested, in that order, are
    followed by the call to Start. *)
Theorem harness_opens_in_order (h : harness.t) (sched : list nat) :
  (forall (before after : list endpoint) (ep : endpoint) (e : goerror),
     requested h = before ++ ep :: after ->
     (forall ep', In ep' before -> open_result (harness.exe h) ep' = None) ->
     open_result (harness.exe h) ep = Some e ->
     exists s,
       harness.run h sched harness.init
         = (s, harness.Return
                 (Some (Executor.Errorf (harness.exe h) (open_failure ep)
                          [VErr e]))) /\
       harness.trace s
         = map open_event (before ++ [ep]) ++ map EvClose before /\
       ~ In EvStart (harness.trace s)) /\
  ((forall ep, In ep (requested h) ->
               open_result (harness.exe h) ep = None) ->
   exists s r rest,
     harness.outcome h sched = Some (s, r) /\
     harness.trace s = map open_event (requested h) ++ EvStart :: rest).
Proof.
  split.
  - intros before after ep e. apply harness_open_fails.
  - intros Hopen. unfold harness.outcome.
    destruct (Executor.Start (harness.exe h)) as [e|] eqn:Hstart.
    + destruct (harness_start_fails h sched e Hopen Hstart) as (s & Hrun & Htr).
      rewrite Hrun. exists s. eexists _, []. split; [reflexivity | exact Htr].
    + destruct (harness_completes h sched Hopen Hstart)
        as (s & r & Hrun & _ & Htr & _).
      rewrite Hrun. exists s, r, [EvWait].
      split; [reflexivity | exact Htr].
Qed.

Lemma harness_opens_in_order_witness :
  exists s,
    harness.run {| harness.exe := remote_exe no_stderr_session "ls";
                   harness.stdin := Some "abc";
                   harness.stdout := true;
                   harness.stderr := true |} [] harness.init
      = (s, harness.Return
              (Some (Executor.Errorf (remote_exe no_stderr_session "ls")
                       "error opening stderr pipe: %v" [VErr boom]))) /\
    harness.trace s = [EvStdoutPipe; EvStderrPipe; EvClose Stdout] /\
    ~ In EvStart (harness.trace s).
Proof.
  apply (proj1 (harness_opens_in_order
                  {| harness.exe := remote_exe no_stderr_session "ls";
                     harness.stdin := Some "abc";
                     harness.stdout := true;
                     harness.stderr := true |} [])
               [Stdout] [Stdin] Stderr boom).
  - reflexivity.
  - intros ep' [<-|[]]. reflexivity.
  - reflexivity.
Defined.

Lemma harness_error_precedence_witness :
  (exists s r,
     harness.run sample_harness [2; 0; 0] harness.init = (s, harness.Next r) /\
     harness.errs s = map carries (arrival_order [2; 0; 0] (tasks sample_harness)) /\
     r = match Executor.Wait (harness.exe sample_harness) with
         | Some e =>
             Some (Executor.Errorf (harness.exe sample_harness)
                     "completed with error: %v" [VErr e])
         | None =>
             first_nonnil
               (map carries (arrival_order [2; 0; 0] (tasks sample_harness)))
         end) /\
  Permutation (arrival_order [2; 0; 0] (tasks sample_harness))
    (tasks sample_harness) /\
  (forall order, Permutation order (tasks sample_harness) ->
                 exists sched', arrival_order sched' (tasks sample_harness) = order).
Proof.
  apply (harness_error_precedence sample_harness [2; 0; 0]).
  - intros ep _. destruct ep; reflexivity.
  - reflexivity.
Defined.

(** The sample harness fails at Wait and in its output drain at once: Wait
    wins, and the drain's error, received second, is not returned. *)
Example harness_wait_wins :
  harness.outcome sample_harness [2; 0; 0]
  = Some ({| harness.trace := [EvStdoutPipe; EvStderrPipe; EvStdinPipe;
                               EvStart; EvWait];
             harness.errchan := [];
             harness.errs_len := 3;
             harness.errs := [None; Some broken_pipe; None];
             harness.pstdout := true;
             harness.pstderr := true;
             harness.out := "";
             harness.errout := "";
             harness.feed_calls := [EvClose Stdin] |},
          Some (GoError "*errors.errorString"
                  ("cmd piper@127.0.0.1:22{false} :: completed with error: "
                   ++ "exit status 1")%string)).
Proof. reflexivity. Qed.

(** With Wait returning nil and both drains failing, the error returned is
    that of the drain whose value arrives first. *)
Example harness_first_arrival_wins :
  let h := {| harness.exe :=
                remote_exe (session (fun _ => "") (Some broken_pipe)
                                    (Some reset_by_peer) None) "ls";
              harness.stdin := None;
              harness.stdout := true;
              harness.stderr := true |} in
  snd (harness.run h [0; 0] harness.init) = harness.Next (Some broken_pipe) /\
  snd (harness.run h [1; 0] harness.init) = harness.Next (Some reset_by_peer).
Proof. split; reflexivity. Qed.

(** * Further properties *)

(** ** The error aggregator, nested *)

Lemma concat_led (sep x : string) (l : list string) :
  String.concat sep (x :: l) = (x ++ led sep l)%string.
Proof.
  revert x; induction l as [|y l IH]; intros x.
  - simpl. now rewrite append_nil_r.
  - change (String.concat sep (x :: y :: l))
      with (x ++ sep ++ String.concat sep (y :: l))%string.
    now rewrite IH.
Qed.

Lemma led_app (sep : string) (l1 l2 : list string) :
  led sep (l1 ++ l2) = (led sep l1 ++ led sep l2)%string.
Proof.
  induction l1 as [|x l1 IH]; simpl; [reflexivity|].
  now rewrite IH, !append_assoc.
Qed.

Lemma nonnil_app (a b : list error) : nonnil (a ++ b) = nonnil a ++ nonnil b.
Proof.
  induction a as [|[e|] a IH]; simpl; [reflexivity | now rewrite IH | exact IH].
Qed.

Lemma concat_nested (sep : string) (l1 m l3 : list string) :
  m <> [] ->
  String.concat sep (l1 ++ String.concat sep m :: l3)
  = String.concat sep (l1 ++ m ++ l3).
Proof.
  intros Hm. destruct m as [|y m]; [congruence|].
  assert (Hled : led sep (String.concat sep (y :: m) :: l3)
                 = led sep ((y :: m) ++ l3)).
  { rewrite led_app. cbn [led]. now rewrite concat_led, !append_assoc. }
  destruct l1 as [|x l1].
  - change ([] ++ String.concat sep (y :: m) :: l3)
      with (String.concat sep (y :: m) :: l3).
    change ([] ++ (y :: m) ++ l3) with (y :: (m ++ l3)).
    rewrite (concat_led sep (String.concat sep (y :: m)) l3).
    rewrite (concat_led sep y (m ++ l3)), (concat_led sep y m).
    now rewrite led_app, append_assoc.
  - change ((x :: l1) ++ String.concat sep (y :: m) :: l3)
      with (x :: (l1 ++ String.concat sep (y :: m) :: l3)).
    change ((x :: l1) ++ (y :: m) ++ l3) with (x :: (l1 ++ (y :: m) ++ l3)).
    rewrite (concat_led sep x (l1 ++ _ :: l3)).
    rewrite (concat_led sep x (l1 ++ (y :: m) ++ l3)).
    now rewrite !led_app, Hled, led_app.
Qed.

(** X1. Aggregating an aggregate is aggregating flat: an element of the
    list that is itself the [joinerrs] of a list [b] counts as the errors of
    [b] in its place. This is how [pipe.run] joins the error of
    [readandwrite] with the error of [wait], itself a [joinerrs]. *)
Theorem joinerrs_nested (sep : string) (a b c : list error) :
  sep <> "" ->
  joinerrs sep (a ++ joinerrs sep b :: c) = joinerrs sep (a ++ b ++ c).
Proof.
  intros Hsep. rewrite (joinerrs_eq sep b Hsep).
  rewrite !(joinerrs_eq sep _ Hsep), !nonnil_app. destruct (nonnil b) as [|e l] eqn:Hb.
  - reflexivity.
  - cbn [nonnil].
    set (j := GoError "*errors.errorString"
                (String.concat sep (map emsg (e :: l)))).
    assert (Hmsg : map emsg (nonnil a ++ j :: nonnil c)
                   = map emsg (nonnil a)
                     ++ String.concat sep (map emsg (e :: l))
                     :: map emsg (nonnil c)).
    { rewrite map_app. reflexivity. }
    assert (Hflat : map emsg (nonnil a ++ (e :: l) ++ nonnil c)
                    = map emsg (nonnil a) ++ map emsg (e :: l)
                      ++ map emsg (nonnil c)).
    { rewrite !map_app. reflexivity. }
    assert (Heq : String.concat sep (map emsg (nonnil a ++ j :: nonnil c))
                  = String.concat sep
                      (map emsg (nonnil a ++ (e :: l) ++ nonnil c))).
    { rewrite Hmsg, Hflat. apply concat_nested. discriminate. }
    destruct (nonnil a) as [|x la]; cbn [app] in *.
    + now rewrite Heq.
    + now rewrite Heq.
Qed.

Lemma joinerrs_nested_witness :
  joinerrs "; " ([Some boom] ++ joinerrs "; " sample_errs :: [None])
  = joinerrs "; " ([Some boom] ++ sample_errs ++ [None]).
Proof. apply (joinerrs_nested "; "). discriminate. Defined.

(** ** The collect phase, in every order *)

Lemma closes_Permutation (l l' : list (chan * sender)) :
  Permutation l l' -> flat_map closes l = flat_map closes l'.
Proof.
  induction 1 as [|m l l' _ IH|m m' l|l l' l'' _ IH1 _ IH2]; cbn [flat_map].
  - reflexivity.
  - now rewrite IH.
  - destruct m as [[| |] ?], m' as [[| |] ?]; reflexivity.
  - now rewrite IH1.
Qed.

(** With fewer than four values to come, the loop never ends. *)
Lemma loop_blocks (fuel : nat) :
  forall sched s,
    pipe.dones s + length (pipe.pending s) < 4 ->
    pipe.loop fuel sched s = None.
Proof.
  induction fuel as [|fuel IH]; intros sched s Hlt; cbn [pipe.loop].
  - destruct (4 <=? pipe.dones s)%nat eqn:Hd; [|reflexivity].
    apply Nat.leb_le in Hd. lia.
  - destruct (4 <=? pipe.dones s)%nat eqn:Hd.
    { apply Nat.leb_le in Hd. lia. }
    destruct (pipe.pending s) as [|m l] eqn:Hp.
    + unfold pipe.select, pick. rewrite Hp. cbn [length].
      now rewrite (proj2 (nth_error_None (@nil (chan * sender)) _))
        by (simpl; lia).
    + assert (Hne : pipe.pending s <> []) by (rewrite Hp; discriminate).
      destruct (select_some (hd 0 sched) s Hne) as (m' & rest & Hperm & Hsel).
      rewrite Hsel. apply IH.
      pose proof (Permutation_length Hperm) as Hl. rewrite Hp in Hl.
      cbn [length] in Hl, Hlt. cbn [pipe.dones pipe.pending]. lia.
Qed.

(** On a pipe whose source stays blocked, [readandwrite] never returns:
    three values are all it receives. *)
Lemma readandwrite_stalls (srcexe snkexe : Executor.t) (sched : list nat) :
  pipe.stalled (pipe_of srcexe snkexe) = true ->
  pipe.readandwrite (pipe_of srcexe snkexe) sched = None.
Proof.
  intros Hp. unfold pipe.readandwrite. apply loop_blocks.
  unfold pipe.rw_init. cbn [pipe.dones pipe.pending]. rewrite Hp. cbn. lia.
Qed.

Lemma returned_flows (srcexe snkexe : Executor.t) (sched : list nat)
  (s : pipe.rw_state) :
  pipe.readandwrite (pipe_of srcexe snkexe) sched = Some s ->
  pipe.stalled (pipe_of srcexe snkexe) = false.
Proof.
  intros Hrw. destruct (pipe.stalled (pipe_of srcexe snkexe)) eqn:Hp;
    [|reflexivity].
  rewrite (readandwrite_stalls _ _ sched Hp) in Hrw. discriminate.
Qed.

Lemma rw_trace_once (srcexe snkexe : Executor.t) (sched : list nat) :
  pipe.stalled (pipe_of srcexe snkexe) = false ->
  exists s,
    pipe.readandwrite (pipe_of srcexe snkexe) sched = Some s /\
    pipe.rw_trace s = [(Snk, EvClose Stdin)].
Proof.
  intros Hp.
  destruct (readandwrite_returns srcexe snkexe sched Hp)
    as (s & Hrw & _ & Hperm & _ & Htr).
  exists s. split; [exact Hrw|].
  rewrite Htr, (closes_Permutation _ _ Hperm). reflexivity.
Qed.

(** X2. On a pipe set up by [send] and [recv] and whose four tasks
    complete (the source does not stay blocked), [readandwrite] returns for
    every order in which they complete, and the only call it makes is one
    Close of the sink's input endpoint. *)
Theorem readandwrite_closes_once (srcexe snkexe : Executor.t)
  (sched : list nat) :
  pipe.stalled (pipe_of srcexe snkexe) = false ->
  exists s,
    pipe.readandwrite (pipe_of srcexe snkexe) sched = Some s /\
    pipe.rw_trace s = [(Snk, EvClose Stdin)].
Proof. exact (rw_trace_once srcexe snkexe sched). Qed.

Lemma readandwrite_closes_once_witness :
  exists s,
    pipe.readandwrite (pipe_of cut_source_exe cut_sink_exe) [1; 2; 0; 0]
      = Some s /\
    pipe.rw_trace s = [(Snk, EvClose Stdin)].
Proof.
  apply (readandwrite_closes_once cut_source_exe cut_sink_exe [1; 2; 0; 0]).
  reflexivity.
Defined.

Lemma next_err_described (err : error) (m : chan * sender) (e : goerror) :
  next_err err m = Some e ->
  err = Some e \/
  exists e0, carries (snd m) = Some e0 /\ e = described (fst m) e0.
Proof.
  destruct m as [c sd]. unfold next_err, described. cbn [fst snd].
  destruct c, (carries sd) as [e0|]; intros H;
    try (injection H as <-; right; exists e0; split; reflexivity);
    try discriminate; left; exact H.
Qed.

Lemma fold_next_err_described (rcv : list (chan * sender)) :
  forall err e,
    fold_left next_err rcv err = Some e ->
    err = Some e \/
    exists m e0,
      In m rcv /\ carries (snd m) = Some e0 /\ e = described (fst m) e0.
Proof.
  induction rcv as [|m rcv IH]; intros err e H; cbn [fold_left] in H.
  - now left.
  - destruct (IH _ _ H) as [Hm | (m' & e0 & Hin & Hc & He)].
    + destruct (next_err_described _ _ _ Hm) as [He | (e0 & Hc & He)].
      * now left.
      * right. exists m, e0. repeat split; [now left | exact Hc | exact He].
    + right. exists m', e0. repeat split; [now right | exact Hc | exact He].
Qed.

(** X3. [readandwrite] reports no error of its own: a non-nil result is the
    error of one of the four tasks, described by the side it came from
    (the copy, the source's drain, one of the sink's drains). *)
Theorem readandwrite_error_origin (srcexe snkexe : Executor.t)
  (sched : list nat) (s : pipe.rw_state) (e : goerror) :
  pipe.readandwrite (pipe_of srcexe snkexe) sched = Some s ->
  pipe.err s = Some e ->
  (exists e0, snd (pipe.connect (pipe_of srcexe snkexe)) = Some e0 /\
              e = fmt.Errorf "error piping: %v" [VErr e0]) \/
  (exists e0, Executor.stderr_rerr srcexe = Some e0 /\
              e = fmt.Errorf "source error: %v" [VErr e0]) \/
  (exists e0, (Executor.stderr_rerr snkexe = Some e0 \/
               Executor.stdout_rerr snkexe = Some e0) /\
              e = fmt.Errorf "sink error: %v" [VErr e0]).
Proof.
  intros Hrw Herr.
  destruct (readandwrite_returns srcexe snkexe sched
              (returned_flows _ _ _ _ Hrw))
    as (s' & Hrw' & _ & Hperm & Hfold & _).
  rewrite Hrw in Hrw'. injection Hrw' as <-.
  rewrite Hfold in Herr.
  destruct (fold_next_err_described _ _ _ Herr)
    as [H | (m & e0 & Hin & Hc & He)]; [discriminate|].
  apply (Permutation_in _ Hperm) in Hin.
  cbn in Hin. destruct Hin as [<-|[<-|[<-|[<-|[]]]]]; cbn [fst snd carries] in *.
  - left. exists e0. split; assumption.
  - right; left. exists e0. split; assumption.
  - right; right. exists e0. split; [now left | assumption].
  - right; right. exists e0. split; [now right | assumption].
Qed.

Lemma readandwrite_error_origin_witness :
  (exists e0, snd (pipe.connect (pipe_of cut_source_exe cut_sink_exe)) = Some e0 /\
              fmt.Errorf "sink error: %v" [VErr broken_pipe]
              = fmt.Errorf "error piping: %v" [VErr e0]) \/
  (exists e0, Executor.stderr_rerr cut_source_exe = Some e0 /\
              fmt.Errorf "sink error: %v" [VErr broken_pipe]
              = fmt.Errorf "source error: %v" [VErr e0]) \/
  (exists e0, (Executor.stderr_rerr cut_sink_exe = Some e0 \/
               Executor.stdout_rerr cut_sink_exe = Some e0) /\
              fmt.Errorf "sink error: %v" [VErr broken_pipe]
              = fmt.Errorf "sink error: %v" [VErr e0]).
Proof.
  apply (readandwrite_error_origin cut_source_exe cut_sink_exe [0; 0; 1; 0]
           {| pipe.err := Some (fmt.Errorf "sink error: %v" [VErr broken_pipe]);
              pipe.dones := 4;
              pipe.pending := [];
              pipe.received :=
                [(Errs, {| from := Copy; carries := None |});
                 (SrcErrchan, {| from := Drain Stderr;
                                 carries := Some reset_by_peer |});
                 (SnkErrchan, {| from := Drain Stdout;
                                 carries := Some broken_pipe |});
                 (SnkErrchan, {| from := Drain Stderr; carries := None |})];
              pipe.rw_trace := [(Snk, EvClose Stdin)] |}).
  - reflexivity.
  - reflexivity.
Defined.

(** Once [err] is set, only the copy's value can clear it. *)
Lemma fold_next_err_stays (rcv : list (chan * sender)) :
  Forall (fun m => fst m <> Errs) rcv ->
  forall e, exists e', fold_left next_err rcv (Some e) = Some e'.
Proof.
  induction 1 as [|[c sd] rcv Hc _ IH]; intros e; cbn [fold_left].
  - now exists e.
  - cbn [fst] in Hc. unfold next_err at 2. cbn [fst snd].
    destruct c; [congruence | |]; destruct (carries sd); apply IH.
Qed.

Lemma copy_error_kept (srcexe snkexe : Executor.t)
  (sched : list nat) (e0 : goerror) :
  snd (pipe.connect (pipe_of srcexe snkexe)) = Some e0 ->
  pipe.stalled (pipe_of srcexe snkexe) = false ->
  exists s e,
    pipe.readandwrite (pipe_of srcexe snkexe) sched = Some s /\
    pipe.err s = Some e.
Proof.
  intros Hcopy Hflow.
  destruct (readandwrite_returns srcexe snkexe sched Hflow)
    as (s & Hrw & _ & Hperm & Hfold & _).
  exists s. rewrite Hfold.
  set (c := (Errs, {| from := Copy;
                      carries := snd (pipe.connect (pipe_of srcexe snkexe)) |})).
  assert (Hin : In c (pipe.received s)).
  { apply (Permutation_in _ (Permutation_sym Hperm)). now left. }
  destruct (in_split _ _ Hin) as (l1 & l2 & Hsplit).
  rewrite Hsplit in Hperm |- *.
  change (four_tasks (pipe_of srcexe snkexe))
    with (c :: map (pair SrcErrchan) (source.errchan (source_of srcexe))
            ++ map (pair SnkErrchan) (sink.errchan (sink_of snkexe))) in Hperm.
  apply Permutation_sym, Permutation_cons_app_inv in Hperm.
  assert (Hrest : Forall (fun m => fst m <> Errs) l2).
  { apply Forall_forall. intros m Hm.
    assert (Hm' : In m (l1 ++ l2)) by (apply in_or_app; now right).
    apply (Permutation_in _ (Permutation_sym Hperm)) in Hm'.
    cbn in Hm'. destruct Hm' as [<-|[<-|[<-|[]]]]; discriminate. }
  rewrite fold_left_app. cbn [fold_left].
  unfold next_err at 2. subst c. cbn [fst snd carries]. rewrite Hcopy.
  destruct (fold_next_err_stays l2 Hrest
              (fmt.Errorf "error piping: %v" [VErr e0])) as [e He].
  exists e. split; [exact Hrw | exact He].
Qed.

(** X4. An error of the connecting copy is never lost: when the copy fails
    and the four tasks complete (the source does not stay blocked),
    [readandwrite] returns a non-nil error, in whatever order they
    complete. *)
Theorem readandwrite_copy_error_kept (srcexe snkexe : Executor.t)
  (sched : list nat) (e0 : goerror) :
  snd (pipe.connect (pipe_of srcexe snkexe)) = Some e0 ->
  pipe.stalled (pipe_of srcexe snkexe) = false ->
  exists s e,
    pipe.readandwrite (pipe_of srcexe snkexe) sched = Some s /\
    pipe.err s = Some e.
Proof. exact (copy_error_kept srcexe snkexe sched e0). Qed.

Lemma readandwrite_copy_error_kept_witness :
  exists s e,
    pipe.readandwrite
      (pipe_of (remote_exe (session (fun _ => "token") (Some reset_by_peer)
                                    None None) "echo -n token")
               clean_sink_exe) [3; 0; 1] = Some s /\
    pipe.err s = Some e.
Proof.
  apply (readandwrite_copy_error_kept _ _ [3; 0; 1] reset_by_peer).
  - reflexivity.
  - reflexivity.
Defined.

(** ** Pipes, whatever happens *)

Lemma source_starts_dec (x : Executor.t) :
  source_starts x \/ ~ source_starts x.
Proof.
  unfold source_starts.
  destruct (Executor.StdoutPipe x), (Executor.StderrPipe x),
    (Executor.Start x); intuition discriminate.
Qed.

Lemma sink_starts_dec (x : Executor.t) : sink_starts x \/ ~ sink_starts x.
Proof.
  unfold sink_starts.
  destruct (Executor.StdoutPipe x), (Executor.StderrPipe x),
    (Executor.StdinPipe x), (Executor.Start x); intuition discriminate.
Qed.

(** A source that is not set up makes [send] fail; the calls made are
    opens, a Close of the output endpoint and Start at most. *)
Lemma send_fails (x : Executor.t) :
  ~ source_starts x ->
  exists tr err,
    send x = (tr, Err err) /\
    Forall (fun ev => ev <> EvWait /\ ev <> EvKill) tr.
Proof.
  intros Hn. unfold send, pipesout, source_starts in *.
  destruct (Executor.StdoutPipe x) as [e|].
  { eexists _, _. split; [reflexivity|]. repeat constructor; discriminate. }
  destruct (Executor.StderrPipe x) as [e|].
  { eexists _, _. split; [reflexivity|]. repeat constructor; discriminate. }
  destruct (Executor.Start x) as [e|].
  { eexists _, _. split; [reflexivity|]. repeat constructor; discriminate. }
  elim Hn. repeat split.
Qed.

Lemma run_returned (srcexe snkexe : Executor.t) (sched : list nat)
  (order : list role) (o : list (role * event) * PipeResult) :
  pipe.run (pipe_of srcexe snkexe) sched order = Some o ->
  pipe.stalled (pipe_of srcexe snkexe) = false.
Proof.
  unfold pipe.run.
  destruct (pipe.readandwrite (pipe_of srcexe snkexe) sched) as [s|] eqn:Hrw;
    [|discriminate].
  intros _. exact (returned_flows _ _ _ _ Hrw).
Qed.


(** A source that does not end with its output unread, piped into the sink
    that takes two bytes only: [Pipe] never returns, whatever the
    schedule. With the source that ends all the same, it does. *)
Example Pipe_blocked (sched : list nat) (order : list role) :
  Pipe stuck_source half_sink sched order = None /\
  Pipe cut_source half_sink sched order <> None.
Proof.
  split.
  - rewrite (Pipe_runs stuck_source half_sink stuck_source_exe half_sink_exe
               sched order); try reflexivity; try (repeat split; reflexivity).
    unfold pipe.run. now rewrite readandwrite_stalls.
  - rewrite (Pipe_runs cut_source half_sink cut_source_exe half_sink_exe
               sched order); try reflexivity; try (repeat split; reflexivity).
    unfold pipe.run.
    destruct (readandwrite_returns cut_source_exe half_sink_exe sched
                eq_refl) as (s & Hrw & _).
    rewrite Hrw.
    destruct (pipe.wait (pipe_of cut_source_exe half_sink_exe) order).
    discriminate.
Qed.

(** X6. When the source does not get started, because the launch of either
    side fails or because the source's setup fails, [Pipe] returns a
    non-nil error at once: no handle is waited for or killed, and nothing
    is called on the sink's side but its launch. A sink launched before the
    source's setup failed is left as launched. *)
Theorem Pipe_source_not_started (srclch snklch : Launchable)
  (sched : list nat) (order : list role) :
  (forall srcexe, LaunchCmd srclch = Ok srcexe ->
                  (forall snkexe, LaunchCmd snklch <> Ok snkexe) \/
                  ~ source_starts srcexe) ->
  exists tr e,
    Pipe srclch snklch sched order
      = Some (tr, {| SrcStderr := ""; SnkStderr := ""; SnkStdout := "";
                     Err_ := Some e |}) /\
    (forall r, ~ In (r, EvWait) tr /\ ~ In (r, EvKill) tr) /\
    (forall ev, In (Snk, ev) tr -> ev = EvLaunch).
Proof.
  intros H. unfold Pipe.
  destruct (LaunchCmd srclch) as [srcexe|e] eqn:Hsrc.
  - destruct (LaunchCmd snklch) as [snkexe|e] eqn:Hsnk.
    + destruct (H srcexe eq_refl) as [Hn|Hn]; [now elim (Hn snkexe)|].
      destruct (send_fails srcexe Hn) as (trsrc & err & Hsend & Hcalls).
      rewrite Hsend. eexists _, _. split; [reflexivity|].
      rewrite Forall_forall in Hcalls. unfold tag.
      split.
      * intros r. split; intros Hin;
          (destruct Hin as [Hin|[Hin|Hin]]; try discriminate;
           apply in_map_iff in Hin; destruct Hin as (ev & Heq & Hin);
           injection Heq as _ Hev; subst ev; apply Hcalls in Hin; tauto).
      * intros ev [Hin|[Hin|Hin]]; try discriminate.
        -- now injection Hin as <-.
        -- apply in_map_iff in Hin. destruct Hin as (ev' & Heq & _).
           discriminate.
    + eexists _, _. split; [reflexivity|]. split.
      * intros r. split; intros [Hin|[Hin|[]]]; discriminate.
      * intros ev [Hin|[Hin|[]]]; [discriminate | now injection Hin as <-].
  - eexists _, _. split; [reflexivity|]. split.
    + intros r. split; intros [Hin|[]]; discriminate.
    + intros ev [Hin|[]]. discriminate.
Qed.

Lemma Pipe_source_not_started_witness :
  exists tr e,
    Pipe unstartable_sink clean_sink [] []
      = Some (tr, {| SrcStderr := ""; SnkStderr := ""; SnkStdout := "";
                     Err_ := Some e |}) /\
    (forall r, ~ In (r, EvWait) tr /\ ~ In (r, EvKill) tr) /\
    (forall ev, In (Snk, ev) tr -> ev = EvLaunch).
Proof.
  apply (Pipe_source_not_started unstartable_sink clean_sink [] []).
  intros srcexe Hsrc. right. injection Hsrc as <-.
  intros (_ & _ & H). discriminate H.
Defined.

(** ** Calls counted *)

Lemma calls_app (c : role * event) (l1 l2 : list (role * event)) :
  calls c (l1 ++ l2) = calls c l1 + calls c l2.
Proof. apply count_occ_app. Qed.

Lemma calls_Interleaving (c : role * event) (l1 l2 l : list (role * event)) :
  Interleaving l1 l2 l -> calls c l = calls c l1 + calls c l2.
Proof.
  unfold calls.
  induction 1 as [|b l1 l2 l _ IH|b l1 l2 l _ IH]; cbn [count_occ].
  - reflexivity.
  - destruct (call_eq_dec b c); lia.
  - destruct (call_eq_dec b c); lia.
Qed.

Lemma calls_tag_other (r r' : role) (ev : event) (tr : list event) :
  r <> r' -> calls (r, ev) (tag r' tr) = 0.
Proof.
  intros Hr. unfold calls. apply count_occ_not_In. unfold tag.
  intros Hin. apply in_map_iff in Hin. destruct Hin as (ev' & Heq & _).
  congruence.
Qed.

Lemma calls_tag_absent (r : role) (ev : event) (tr : list event) :
  ~ In ev tr -> calls (r, ev) (tag r tr) = 0.
Proof.
  intros Hn. unfold calls. apply count_occ_not_In. unfold tag.
  intros Hin. apply in_map_iff in Hin. destruct Hin as (ev' & Heq & Hin).
  injection Heq as ->. contradiction.
Qed.

(** X7. On every run of [Pipe] that returns after the source has started,
    Wait has been called on the source exactly once, whether the sink got
    set up or not; Wait has been called on the sink exactly once when the
    sink started and never otherwise; Kill has never been called on the
    sink, and on the source at most once. (A run that does not return is
    the one of X5.) *)
Theorem Pipe_waits_once (srclch snklch : Launchable)
  (srcexe snkexe : Executor.t) (sched : list nat) (order : list role)
  (tr : list (role * event)) (pr : PipeResult) :
  LaunchCmd srclch = Ok srcexe -> LaunchCmd snklch = Ok snkexe ->
  source_starts srcexe ->
  Pipe srclch snklch sched order = Some (tr, pr) ->
  calls (Src, EvWait) tr = 1 /\
  (sink_starts snkexe -> calls (Snk, EvWait) tr = 1) /\
  (~ sink_starts snkexe -> calls (Snk, EvWait) tr = 0) /\
  calls (Snk, EvKill) tr = 0 /\
  calls (Src, EvKill) tr <= 1.
Proof.
  intros Hsrc Hsnk Hs Hpipe.
  destruct (sink_starts_dec snkexe) as [Hr|Hr].
  - rewrite (Pipe_runs _ _ _ _ sched order Hsrc Hsnk Hs Hr) in Hpipe.
    assert (Hflow : pipe.stalled (pipe_of srcexe snkexe) = false).
    { destruct (pipe.run (pipe_of srcexe snkexe) sched order) as [o|] eqn:Hrun;
        [exact (run_returned _ _ _ _ _ Hrun) | discriminate]. }
    unfold pipe.run in Hpipe.
    destruct (rw_trace_once srcexe snkexe sched Hflow) as (s & Hrw & Htr).
    rewrite Hrw in Hpipe. unfold pipe.wait in Hpipe.
    destruct (interleave_complete (pipe_of srcexe snkexe) order) as [Hw _].
    match type of Hpipe with
    | Some (?t, _) = _ => assert (Heq : tr = t) by congruence
    end.
    rewrite Heq, Htr. clear Heq Hpipe.
    rewrite !calls_app, !(calls_Interleaving _ _ _ _ Hw).
    unfold snk_calls.
    destruct (Executor.Wait (sink.exe (pipe.snk (pipe_of srcexe snkexe))));
      cbn; repeat split; intros; try reflexivity; try lia; tauto.
  - destruct (recv_fails snkexe Hr) as (trsnk & err & Hrecv & Hnw & Hnk).
    unfold Pipe in Hpipe.
    rewrite Hsrc, Hsnk, (send_starts _ Hs), Hrecv in Hpipe.
    match type of Hpipe with
    | Some (?t, _) = _ => assert (Heq : tr = t) by congruence
    end.
    rewrite Heq. clear Heq Hpipe.
    rewrite !calls_app, !(calls_tag_other Src Snk) by discriminate.
    rewrite (calls_tag_absent Snk EvWait trsnk Hnw),
            (calls_tag_absent Snk EvKill trsnk Hnk).
    cbn. repeat split; intros; try reflexivity; try lia; tauto.
Qed.

Lemma Pipe_waits_once_witness :
  exists tr pr,
    Pipe stubborn_source unstartable_sink [] [] = Some (tr, pr) /\
    calls (Src, EvWait) tr = 1 /\
    (sink_starts (remote_exe unstartable_session "cat") ->
     calls (Snk, EvWait) tr = 1) /\
    (~ sink_starts (remote_exe unstartable_session "cat") ->
     calls (Snk, EvWait) tr = 0) /\
    calls (Snk, EvKill) tr = 0 /\
    calls (Src, EvKill) tr <= 1.
Proof.
  eexists _, _. split; [reflexivity|].
  eapply (Pipe_waits_once stubborn_source unstartable_sink
            (remote_exe stubborn_session "yes")
            (remote_exe unstartable_session "cat") [] []).
  - reflexivity.
  - reflexivity.
  - repeat split.
  - reflexivity.
Defined.

(** ** What a nil error of a pipe means *)

(** X8. [Pipe] returns a nil error only if both sides were launched and set
    up, both commands exited zero and the connecting copy completed without
    error. (The errors of the three drains need not be nil.) *)
Theorem Pipe_nil_only_if (srclch snklch : Launchable) (sched : list nat)
  (order : list role) (tr : list (role * event)) (pr : PipeResult) :
  Pipe srclch snklch sched order = Some (tr, pr) ->
  Err_ pr = None ->
  exists srcexe snkexe,
    LaunchCmd srclch = Ok srcexe /\ LaunchCmd snklch = Ok snkexe /\
    source_starts srcexe /\ sink_starts snkexe /\
    Executor.Wait srcexe = None /\ Executor.Wait snkexe = None /\
    snd (pipe.connect (pipe_of srcexe snkexe)) = None.
Proof.
  intros Hpipe Hnil.
  destruct (LaunchCmd srclch) as [srcexe|e] eqn:Hsrc.
  2:{ unfold Pipe in Hpipe. rewrite Hsrc in Hpipe.
      injection Hpipe as _ <-. discriminate Hnil. }
  destruct (LaunchCmd snklch) as [snkexe|e] eqn:Hsnk.
  2:{ unfold Pipe in Hpipe. rewrite Hsrc, Hsnk in Hpipe.
      injection Hpipe as _ <-. discriminate Hnil. }
  destruct (source_starts_dec srcexe) as [Hs|Hs].
  2:{ destruct (send_fails srcexe Hs) as (trsrc & err & Hsend & _).
      unfold Pipe in Hpipe. rewrite Hsrc, Hsnk, Hsend in Hpipe.
      injection Hpipe as _ <-. discriminate Hnil. }
  destruct (sink_starts_dec snkexe) as [Hr|Hr].
  2:{ destruct (recv_fails snkexe Hr) as (trsnk & err & Hrecv & _).
      unfold Pipe in Hpipe.
      rewrite Hsrc, Hsnk, (send_starts _ Hs), Hrecv in Hpipe.
      injection Hpipe as _ <-. discriminate Hnil. }
  exists srcexe, snkexe.
  rewrite (Pipe_runs _ _ _ _ sched order Hsrc Hsnk Hs Hr) in Hpipe.
  destruct (pipe.run (pipe_of srcexe snkexe) sched order)
    as [[tr' pr']|] eqn:Hrun; [|discriminate].
  assert (pr' = pr) by congruence. subst pr'.
  destruct (run_nil_exits _ _ _ _ _ Hrun Hnil)
    as (Hws & Hwk & s & Hrw & Herr).
  split; [reflexivity|]. split; [reflexivity|].
  split; [exact Hs|]. split; [exact Hr|].
  split; [exact Hws|]. split; [exact Hwk|].
  destruct (snd (pipe.connect (pipe_of srcexe snkexe))) as [e0|] eqn:Hc;
    [|reflexivity].
  destruct (copy_error_kept srcexe snkexe sched e0 Hc
              (run_returned _ _ _ _ _ Hrun)) as (s' & e & Hrw' & He).
  congruence.
Qed.

Lemma Pipe_nil_only_if_witness :
  Pipe (toy "echo -n 1804289383") (toy "cat") [2; 0; 1] [Snk; Src]
    = Some token_into_cat /\
  Err_ (snd token_into_cat) = None /\
  exists srcexe snkexe,
    LaunchCmd (toy "echo -n 1804289383") = Ok srcexe /\
    LaunchCmd (toy "cat") = Ok snkexe /\
    source_starts srcexe /\ sink_starts snkexe /\
    Executor.Wait srcexe = None /\ Executor.Wait snkexe = None /\
    snd (pipe.connect (pipe_of srcexe snkexe)) = None.
Proof.
  assert (H : Pipe (toy "echo -n 1804289383") (toy "cat") [2; 0; 1] [Snk; Src]
              = Some (fst token_into_cat, snd token_into_cat))
    by (vm_compute; reflexivity).
  split; [exact H | split; [reflexivity|]].
  exact (Pipe_nil_only_if (toy "echo -n 1804289383") (toy "cat")
           [2; 0; 1] [Snk; Src] (fst token_into_cat) (snd token_into_cat)
           H eq_refl).
Defined.



(** The sink that takes two bytes of the token before writing to it fails:
    what it copied is those two bytes, and the error of the copy shows. *)
Example Pipe_into_half_sink :
  SnkStdout (snd token_into_half) = "to"%string /\
  Err_ (snd token_into_half)
  = Some (GoError "*errors.errorString"
            "error piping: io: read/write on closed pipe").
Proof. split; reflexivity. Qed.

(** ** The harness, run to its end *)

(** The values received are the values of the tasks started. *)
Lemma arrived_values (h : harness.t) (sched : list nat) :
  Permutation (map carries (arrival_order sched (tasks h)))
              (map (task_result h) (requested h)).
Proof.
  eapply perm_trans.
  - apply Permutation_map, arrival_order_Permutation.
  - unfold tasks. rewrite map_map. cbn [carries]. apply Permutation_refl.
Qed.

Lemma first_failure (x : Executor.t) (l : list endpoint) :
  (forall ep, In ep l -> open_result x ep = None) \/
  exists before ep after e,
    l = before ++ ep :: after /\
    (forall ep', In ep' before -> open_result x ep' = None) /\
    open_result x ep = Some e.
Proof.
  induction l as [|a l IH].
  - left. intros ep [].
  - destruct (open_result x a) as [e|] eqn:Ha.
    + right. exists [], a, l, e. repeat split; [|exact Ha]. intros ep' [].
    + destruct IH as [Hall | (before & ep & after & e & Hl & Hb & He)].
      * left. intros ep [<-|Hin]; [exact Ha | now apply Hall].
      * right. exists (a :: before), ep, after, e. rewrite Hl.
        repeat split; [|exact He].
        intros ep' [<-|Hin]; [exact Ha | now apply Hb].
Qed.

Lemma first_nonnil_None (errs : list error) :
  first_nonnil errs = None <-> Forall (fun e => e = None) errs.
Proof.
  unfold first_nonnil. rewrite <- nonnil_nil_iff.
  destruct (nonnil errs); split; intros H; try reflexivity; discriminate.
Qed.

(** X10. The harness returns nil exactly when every endpoint requested
    opened, Start and Wait returned nil, and every task started (the drains
    and the feed) completed without error: no failure is lost, and nothing
    else makes it fail. This holds in whatever order the tasks complete. *)
Theorem harness_nil_iff (h : harness.t) (sched : list nat) :
  (exists s, harness.outcome h sched = Some (s, None)) <->
  (opens_ok h /\
   Executor.Start (harness.exe h) = None /\
   Executor.Wait (harness.exe h) = None /\
   forall ep, In ep (requested h) -> task_result h ep = None).
Proof.
  unfold harness.outcome. split.
  - intros (s & Hout).
    destruct (first_failure (harness.exe h) (requested h))
      as [Hopen | (before & ep & after & e & Hl & Hb & He)].
    2:{ destruct (harness_open_fails h sched _ _ _ _ Hl Hb He) as (s' & Hrun & _).
        rewrite Hrun in Hout. discriminate. }
    destruct (Executor.Start (harness.exe h)) as [e|] eqn:Hstart.
    { destruct (harness_start_fails h sched e Hopen Hstart) as (s' & Hrun & _).
      rewrite Hrun in Hout. discriminate. }
    destruct (harness_completes h sched Hopen Hstart)
      as (s' & r & Hrun & _ & _ & _ & _ & _ & Hr).
    pose proof (arrived_values h sched) as Hperm.
    rewrite Hrun in Hout. injection Hout as -> ->.
    destruct (Executor.Wait (harness.exe h)) as [e|]; [discriminate|].
    repeat split; try assumption.
    symmetry in Hr. apply first_nonnil_None in Hr.
    pose proof (Permutation_Forall Hperm Hr) as Hall.
    rewrite Forall_forall in Hall. intros ep Hin.
    apply Hall. now apply in_map.
  - intros (Hopen & Hstart & Hwait & Htasks).
    destruct (harness_completes h sched Hopen Hstart)
      as (s & r & Hrun & _ & _ & _ & _ & _ & Hr).
    pose proof (arrived_values h sched) as Hperm.
    rewrite Hrun. exists s. rewrite Hr, Hwait.
    assert (Hnil : first_nonnil
                     (map carries (arrival_order sched (tasks h))) = None).
    { apply first_nonnil_None.
      eapply Permutation_Forall; [apply Permutation_sym, Hperm|].
      apply Forall_forall. intros e Hin. apply in_map_iff in Hin.
      destruct Hin as (ep & <- & Hin). now apply Htasks. }
    now rewrite Hnil.
Qed.

(** X11. On a run that starts, the calls that [run] makes itself are the
    opens of the endpoints requested, Start and Wait, in that order: it
    closes nothing. When an input was given, the input endpoint is closed
    by the feed task, once, after the value of the feed has been received;
    that Close is in no order with Wait, and may come after it. *)
Theorem harness_calls (h : harness.t) (sched : list nat) :
  opens_ok h ->
  Executor.Start (harness.exe h) = None ->
  exists s r,
    harness.outcome h sched = Some (s, r) /\
    harness.trace s = map open_event (requested h) ++ [EvStart; EvWait] /\
    harness.feed_calls s
    = (match harness.stdin h with
       | Some _ => [EvClose Stdin]
       | None => []
       end).
Proof.
  intros Hopen Hstart. unfold harness.outcome.
  destruct (harness_completes h sched Hopen Hstart)
    as (s & r & Hrun & _ & Htr & Hfc & _).
  rewrite Hrun. exists s, r. split; [reflexivity | split; assumption].
Qed.

Lemma harness_calls_witness :
  exists s r,
    harness.outcome {| harness.exe := clean_sink_exe;
                       harness.stdin := Some "abc";
                       harness.stdout := true;
                       harness.stderr := false |} [1] = Some (s, r) /\
    harness.trace s = [EvStdoutPipe; EvStdinPipe] ++ [EvStart; EvWait] /\
    harness.feed_calls s = [EvClose Stdin].
Proof.
  apply (harness_calls {| harness.exe := clean_sink_exe;
                          harness.stdin := Some "abc";
                          harness.stdout := true;
                          harness.stderr := false |} [1]).
  - intros ep _. destruct ep; reflexivity.
  - reflexivity.
Defined.

(** X12. When Start fails, the endpoints requested having opened, the
    harness returns the error of Start, described by the handle's Errorf,
    right after the call: it neither waits nor closes what it opened, which
    it leaves to Start. *)
Theorem harness_start_failure (h : harness.t) (sched : list nat)
  (e : goerror) :
  opens_ok h ->
  Executor.Start (harness.exe h) = Some e ->
  exists s,
    harness.outcome h sched
      = Some (s, Some (Executor.Errorf (harness.exe h) "error starting: %v"
                         [VErr e])) /\
    harness.trace s = map open_event (requested h) ++ [EvStart].
Proof.
  intros Hopen Hstart. unfold harness.outcome.
  destruct (harness_start_fails h sched e Hopen Hstart) as (s & Hrun & Htr).
  rewrite Hrun. exists s. split; [reflexivity | exact Htr].
Qed.

Lemma harness_start_failure_witness :
  exists s,
    harness.outcome {| harness.exe := remote_exe unstartable_session "cat";
                       harness.stdin := Some "abc";
                       harness.stdout := true;
                       harness.stderr := true |} []
      = Some (s, Some (Executor.Errorf (remote_exe unstartable_session "cat")
                         "error starting: %v" [VErr reset_by_peer])) /\
    harness.trace s = [EvStdoutPipe; EvStderrPipe; EvStdinPipe] ++ [EvStart].
Proof.
  apply (harness_start_failure
           {| harness.exe := remote_exe unstartable_session "cat";
              harness.stdin := Some "abc";
              harness.stdout := true;
              harness.stderr := true |} [] reset_by_peer).
  - intros ep _. destruct ep; reflexivity.
  - reflexivity.
Defined.

(** X13. The harness always returns: it receives exactly as many
    completion values as it started tasks, so that no order of completion
    leaves it blocked, and every path before Start returns at once. *)
Theorem harness_returns (h : harness.t) (sched : list nat) :
  exists s r, harness.outcome h sched = Some (s, r).
Proof.
  unfold harness.outcome.
  destruct (first_failure (harness.exe h) (requested h))
    as [Hopen | (before & ep & after & e & Hl & Hb & He)].
  - destruct (Executor.Start (harness.exe h)) as [e|] eqn:Hstart.
    + destruct (harness_start_fails h sched e Hopen Hstart) as (s & Hrun & _).
      rewrite Hrun. eexists _, _. reflexivity.
    + destruct (harness_completes h sched Hopen Hstart) as (s & r & Hrun & _).
      rewrite Hrun. eexists _, _. reflexivity.
  - destruct (harness_open_fails h sched _ _ _ _ Hl Hb He) as (s & Hrun & _).
    rewrite Hrun. eexists _, _. reflexivity.
Qed.

(** ** The public operations on one command *)

(** X14. [RunCmd] returns nil exactly when the launcher returned a handle
    and the handle's Start and Wait both returned nil; its calls are then
    the launch, Start and Wait, and no endpoint is opened. *)
Theorem RunCmd_nil_iff (lch : Launcher.t) (cmd : string) (sched : list nat)
  (tr : list event) :
  RunCmd lch cmd sched = Some (tr, None) <->
  exists exe,
    Launcher.Launch lch cmd = Ok exe /\
    Executor.Start exe = None /\ Executor.Wait exe = None /\
    tr = [EvLaunch; EvStart; EvWait].
Proof.
  unfold RunCmd, startCmd, ran, harness.outcome, newHarness.
  destruct (Launcher.Launch lch cmd) as [x|e].
  - destruct x as [c errorf xrun xstart xerrp xinp xoutp xwait xkill
                   pout perr orerr ererr iwerr itaken eunread].
    harness_unfold. cbn.
    destruct xstart as [e|]; cbn; [|destruct xwait as [e|]; cbn].
    + split; [discriminate | intros (x & Hx & Hs & _)].
      injection Hx as <-. discriminate Hs.
    + split; [discriminate | intros (x & Hx & _ & Hw & _)].
      injection Hx as <-. discriminate Hw.
    + split.
      * intros H. injection H as <-. eexists. repeat split.
      * intros (x & Hx & _ & _ & ->). reflexivity.
  - split; [discriminate | intros (x & Hx & _)]. discriminate Hx.
Qed.





(** X17. In a pipe whose two sides are set up, the source is killed exactly
    once when the sink's Wait returns an error and is not killed when it
    returns nil; and an error returned by the Wait of either side always
    shows in the error of the result: the exit of a command is never
    lost. *)
Theorem Pipe_exit_failures (srclch snklch : Launchable)
  (srcexe snkexe : Executor.t) (sched : list nat) (order : list role)
  (tr : list (role * event)) (pr : PipeResult) :
  LaunchCmd srclch = Ok srcexe -> LaunchCmd snklch = Ok snkexe ->
  source_starts srcexe -> sink_starts snkexe ->
  Pipe srclch snklch sched order = Some (tr, pr) ->
  calls (Src, EvKill) tr
    = match Executor.Wait snkexe with Some _ => 1 | None => 0 end /\
  (Executor.Wait srcexe <> None \/ Executor.Wait snkexe <> None ->
   Err_ pr <> None).
Proof.
  intros Hsrc Hsnk Hs Hr Hpipe.
  rewrite (Pipe_runs _ _ _ _ sched order Hsrc Hsnk Hs Hr) in Hpipe.
  destruct (pipe.run (pipe_of srcexe snkexe) sched order)
    as [[tr' pr']|] eqn:Hrun; [|discriminate].
  assert (pr' = pr) by congruence. subst pr'.
  split.
  - pose proof (run_returned _ _ _ _ _ Hrun) as Hflow.
    unfold pipe.run in Hrun.
    destruct (rw_trace_once srcexe snkexe sched Hflow) as (s & Hrw & Htr).
    rewrite Hrw in Hrun. unfold pipe.wait in Hrun.
    destruct (interleave_complete (pipe_of srcexe snkexe) order) as [Hw _].
    match type of Hrun with
    | Some (?t, _) = _ => assert (Heq : tr' = t) by congruence
    end.
    match type of Hpipe with
    | Some (?t, _) = _ => assert (Heq' : tr = t) by congruence
    end.
    rewrite Heq', Heq, Htr.
    rewrite !calls_app, !(calls_Interleaving _ _ _ _ Hw).
    unfold snk_calls. cbn [pipe_of pipe.snk sink_of sink.exe].
    destruct (Executor.Wait snkexe); reflexivity.
  - intros Hfail Hnil.
    destruct (run_nil_exits _ _ _ _ _ Hrun Hnil) as (Hws & Hwk & _).
    cbn in Hws, Hwk. tauto.
Qed.

Lemma Pipe_exit_failures_witness :
  Pipe (toy "echo -n 1804289383") (toy "false") [] [Snk]
    = Some token_into_false /\
  calls (Src, EvKill) (fst token_into_false) = 1 /\
  Err_ (snd token_into_false) <> None.
Proof.
  assert (H : Pipe (toy "echo -n 1804289383") (toy "false") [] [Snk]
              = Some (fst token_into_false, snd token_into_false))
    by (vm_compute; reflexivity).
  split; [exact H|].
  destruct (Pipe_exit_failures
              (toy "echo -n 1804289383") (toy "false")
              (local.Executor_of {| local.Cmd_ := toy_sh "echo -n 1804289383";
                                    local.command := "echo -n 1804289383" |})
              (local.Executor_of {| local.Cmd_ := toy_sh "false";
                                    local.command := "false" |})
              [] [Snk] (fst token_into_false) (snd token_into_false)
              eq_refl eq_refl
              (conj eq_refl (conj eq_refl eq_refl))
              (conj eq_refl (conj eq_refl (conj eq_refl eq_refl)))
              H) as [Hk He].
  split; [exact Hk|].
  apply He. right. discriminate.
Defined.

(** ** Errors that name their origin *)

Lemma Sprintf_cmd_local (c : string) :
  Sprintf "cmd {%s} :" [VStr c] = ("cmd {" ++ c ++ "} :")%string.
Proof. reflexivity. Qed.

Lemma Sprintf_cmd_ssh (d c : string) :
  Sprintf "cmd %s{%s} :" [VStr d; VStr c]
  = ("cmd " ++ d ++ "{" ++ c ++ "} :")%string.
Proof. unfold Sprintf. cbn. now rewrite ?append_assoc. Qed.

(** X18. Every error a handle describes names its command: the message of
    a local handle's Errorf is the command between braces followed by the
    formatted message; that of a remote handle's Errorf has the launcher's
    description before the braces. *)
Theorem exe_Errorf_names_command (pat : string) (args : list value) :
  (forall e : local.exe,
     emsg (local.exe_Errorf e pat args)
     = ("cmd {" ++ local.command e ++ "} :: " ++ Sprintf pat args)%string) /\
  (forall e : ssh.exe,
     emsg (ssh.exe_Errorf e pat args)
     = ("cmd " ++ ssh.launchdesc e ++ "{" ++ ssh.command e ++ "} :: "
        ++ Sprintf pat args)%string).
Proof.
  split; intros e.
  - unfold local.exe_Errorf, fmt.Errorf. cbn [emsg].
    rewrite Sprintf_cmd_local, Sprintf_s_colon_v. cbn [emsg].
    now rewrite ?append_assoc.
  - unfold ssh.exe_Errorf, fmt.Errorf. cbn [emsg].
    rewrite Sprintf_cmd_ssh, Sprintf_s_colon_v. cbn [emsg].
    now rewrite ?append_assoc.
Qed.

Lemma Sprintf_error_starting (cmd : string) (e : goerror) :
  Sprintf "error starting %s: %v" [VStr cmd; VErr e]
  = ("error starting " ++ cmd ++ ": " ++ emsg e)%string.
Proof. unfold Sprintf. cbn. now rewrite append_nil_r. Qed.

(** X19. When the remote launcher cannot open a session, each of the four
    operations on one command returns at once, having called nothing but
    the launch, an error whose message is the launcher's description, then
    the command, then the message of the session's error. *)
Theorem remote_launch_failure (l : ssh.Launcher) (cmd stdin : string)
  (sched : list nat) (e : goerror) :
  ssh.Client.NewSession (ssh.Client_ l) = Err e ->
  let err := GoError "*errors.errorString"
               (ssh.String l ++ ": : error starting " ++ cmd ++ ": "
                ++ emsg e)%string in
  RunCmd (ssh.Launcher_of l) cmd sched = Some ([EvLaunch], Some err) /\
  RunCmdStrIn (ssh.Launcher_of l) cmd stdin sched
    = Some ([EvLaunch], Some err) /\
  RunCmdCapture (ssh.Launcher_of l) cmd sched
    = Some ([EvLaunch], (""%string, ""%string, Some err)) /\
  RunCmdStrInCapture (ssh.Launcher_of l) cmd stdin sched
    = Some ([EvLaunch], (""%string, ""%string, Some err)).
Proof.
  intros Hn err.
  assert (Hstart : startCmd (ssh.Launcher_of l) cmd = Err err).
  { unfold startCmd, ssh.Launcher_of. cbn [Launcher.Launch Launcher.Errorf].
    unfold ssh.Launch. rewrite Hn. f_equal.
    unfold err, ssh.Errorf, fmt.Errorf. f_equal.
    rewrite Sprintf_s_colon, Sprintf_s_colon_v. cbn [emsg].
    rewrite Sprintf_error_starting, ?append_assoc. reflexivity. }
  unfold RunCmd, RunCmdStrIn, RunCmdCapture, RunCmdStrInCapture, not_started.
  rewrite Hstart. repeat split.
Qed.

Lemma remote_launch_failure_witness :
  RunCmd (ssh.Launcher_of
            {| ssh.Client_ :=
                 {| ssh.Client.User := "piper";
                    ssh.Client.RemoteAddr := "127.0.0.1:22";
                    ssh.Client.NewSession := Err reset_by_peer;
                    ssh.Client.Close := None |} |}) "true" []
  = Some ([EvLaunch],
          Some (GoError "*errors.errorString"
                  ("piper@127.0.0.1:22: : error starting true: "
                   ++ "read tcp 127.0.0.1:22: connection reset by peer")%string)).
Proof.
  apply (remote_launch_failure
           {| ssh.Client_ :=
                {| ssh.Client.User := "piper";
                   ssh.Client.RemoteAddr := "127.0.0.1:22";
                   ssh.Client.NewSession := Err reset_by_peer;
                   ssh.Client.Close := None |} |} "true" "" [] reset_by_peer).
  reflexivity.
Defined.
